(** * code-collector: ignore rules, tree rendering and content emission

    A shallow embedding of [scripts/code-collector.py].  Python [str] values
    are modelled as [string] (their UTF-8 bytes: byte-wise comparison and
    byte-wise suffix tests agree with Python's code-point ones on valid
    text), Python sets of strings as [gset string], the scanned directory
    as a finite tree of named entries, and the two output channels (the
    output file and standard output) as an explicit state record. *)

From Stdlib Require Import Ascii ZArith.
From stdpp Require Import base option gmap sets list strings sorting.

(** ** [os.path] on POSIX, as far as the script uses it *)
Module os_path.

Definition sep : ascii := "/"%char.

Definition is_sep (c : ascii) : bool := bool_decide (c = sep).

(** ['/' in p] *)
Fixpoint has_sep (p : string) : bool :=
  match p with
  | EmptyString => false
  | String c r => is_sep c || has_sep r
  end.

(** [os.path.basename]: everything after the last ['/'] ([p[p.rfind('/')+1:]]). *)
Fixpoint basename (p : string) : string :=
  match p with
  | EmptyString => EmptyString
  | String c r =>
      if has_sep r then basename r
      else if is_sep c then r else p
  end.

(** [p.startswith('/')] *)
Definition starts_with_sep (p : string) : bool :=
  match p with
  | String c _ => is_sep c
  | EmptyString => false
  end.

(** [s.endswith(suffix)]: some tail of [s] is [suffix]. *)
Fixpoint endswith (s suffix : string) : bool :=
  if bool_decide (s = suffix) then true
  else match s with
       | EmptyString => false
       | String _ r => endswith r suffix
       end.

(** [os.path.join(a, b)] with two arguments. *)
Definition join (a b : string) : string :=
  if starts_with_sep b then b
  else if bool_decide (a = "") || endswith a "/" then a +:+ b
  else a +:+ "/" +:+ b.

End os_path.

(** ** The part of the [pathspec] package the script calls

    A compiled pattern carries its [include] flag ([None] for blank lines
    and comments) and its regular expression, kept abstract as a predicate
    on the normalised path.  [match_file] lets the last matching pattern
    decide; a [PathSpec] is truthy when it holds at least one pattern
    ([__len__]). *)
Module pathspec.

Record Pattern := {
  include : option bool;
  regex_match : string → bool
}.

Record PathSpec := { patterns : list Pattern }.

Definition len (s : PathSpec) : nat := length (patterns s).

Definition check_pattern (file : string) (out : option bool) (p : Pattern)
  : option bool :=
  match include p with
  | Some inc => if regex_match p file then Some inc else out
  | None => out
  end.

Definition match_file (s : PathSpec) (file : string) : bool :=
  match fold_left (check_pattern file) (patterns s) None with
  | Some true => true
  | _ => false
  end.

End pathspec.

Import os_path.

(** Truthiness of [spec] in [if spec and ...]: [None] and a [PathSpec]
    without patterns are falsy. *)
Definition spec_truthy (spec : option pathspec.PathSpec) : bool :=
  match spec with
  | None => false
  | Some s => negb (pathspec.len s =? 0)
  end.

Definition spec_match_file (spec : option pathspec.PathSpec) (rel_path : string)
  : bool :=
  match spec with
  | None => false
  | Some s => pathspec.match_file s rel_path
  end.

(** ** [should_ignore] *)
Definition should_ignore (rel_path : string) (spec : option pathspec.PathSpec)
    (extra_ignore_files extra_ignore_extensions : gset string) : bool :=
  if bool_decide (basename rel_path ∈ extra_ignore_files) then true
  else if existsb (λ ext, endswith rel_path ext)
            (elements extra_ignore_extensions) then true
  else if spec_truthy spec && spec_match_file spec rel_path then true
  else false.

(** The three tests of [should_ignore], one by one. *)
Definition check_name (N : gset string) (p : string) : bool :=
  bool_decide (basename p ∈ N).
Definition check_extension (E : gset string) (p : string) : bool :=
  existsb (λ ext, endswith p ext) (elements E).
Definition check_spec (spec : option pathspec.PathSpec) (p : string) : bool :=
  spec_truthy spec && spec_match_file spec p.

(** Running a list of tests in the given order, returning [True] at the
    first one that fires and [False] when none does. *)
Fixpoint first_hit (checks : list (string → bool)) (p : string) : bool :=
  match checks with
  | [] => false
  | c :: rest => if c p then true else first_hit rest p
  end.

(** ** The scanned directory

    What the script can observe of the directory under [target_dir]: a
    file either yields its decoded text or fails to be opened, read or
    decoded with some reason; a directory either lists its entries (in the
    order the operating system returns them) or fails to be listed.

    A symbolic link to a directory is a [DirLink], with the listing of the
    directory it leads to: [os.listdir] and [os.path.isdir] follow the
    link, [os.walk] puts its name among [dirs] but does not enter it.  A
    name that leads to a file, be it the file's only name, one of its hard
    links or a symbolic link to it, is a [File]: the script opens and
    reads it the same way (a dangling link fails to open).  A link that
    leads back to a directory above it unrolls to the finite depth at which
    the operating system stops resolving it.  The output file is taken to
    lie outside the target directory. *)
#[warnings="-register-all"]
Inductive node :=
| File (data : string + string)
| Dir (listing : option (list (string * node)))
| DirLink (listing : option (list (string * node))).

Definition entries_of (d : node) : option (list (string * node)) :=
  match d with
  | Dir (Some es) | DirLink (Some es) => Some es
  | _ => None
  end.

(** [os.listdir(full_path)]; [None] stands for the exception it raises. *)
Definition listdir (d : node) : option (list string) :=
  es ← entries_of d; Some (es.*1).

Fixpoint lookup_entry (name : string) (es : list (string * node)) : option node :=
  match es with
  | [] => None
  | (n, x) :: rest => if bool_decide (n = name) then Some x else lookup_entry name rest
  end.

(** The object found at [os.path.join(full_path, name)], if any. *)
Definition child (d : node) (name : string) : option node :=
  es ← entries_of d; lookup_entry name es.

(** [entry.is_dir()] and [os.path.isdir]: links are followed. *)
Definition is_dir (x : node) : bool :=
  match x with Dir _ | DirLink _ => true | File _ => false end.

(** [os.path.islink] of a name that leads to a directory. *)
Definition is_link (x : node) : bool :=
  match x with DirLink _ => true | _ => false end.

(** [os.path.isdir] and [os.path.isfile] of a looked-up path. *)
Definition isdir (o : option node) : bool :=
  match o with Some (Dir _) | Some (DirLink _) => true | _ => false end.

(** The looked-up object when it is a directory, reached through a link
    or not. *)
Definition subdir (o : option node) : option node :=
  match o with
  | Some c => if is_dir c then Some c else None
  | None => None
  end.
Definition isfile (o : option node) : bool :=
  match o with Some (File _) => true | _ => false end.

(** [io.open(path, "r", encoding="utf-8").read()]: the text, or the reason
    of the exception. *)
Definition read_text (o : option node) : string + string :=
  match o with
  | Some (File data) => data
  | Some (Dir _) | Some (DirLink _) => inr "[Errno 21] Is a directory"
  | None => inr "[Errno 2] No such file or directory"
  end.

(** [sorted(names)] on strings. *)
Definition sorted (names : list string) : list string :=
  merge_sort String.le names.

Definition nl : string := String (ascii_of_nat 10) EmptyString.

(** ** Output channels *)
Record state := {
  outf : list string;     (* the strings written to the output file, in order *)
  stdout : list string    (* the lines printed to standard output, in order *)
}.

Definition write (s : string) (st : state) : state :=
  {| outf := outf st ++ [s]; stdout := stdout st |}.

Definition print (s : string) (st : state) : state :=
  {| outf := outf st; stdout := stdout st ++ [s] |}.

(** The text of the output file. *)
Definition document (st : state) : string :=
  foldr String.append EmptyString (outf st).

Section collector.

(** The variables [generate_tree] and the walk of [main] close over. *)
Variable spec : option pathspec.PathSpec.
Variable extra_ignore_files : gset string.
Variable extra_ignore_extensions : gset string.

(** [os.path.join(current_rel, entry) if current_rel else entry]; also
    [os.path.relpath(os.path.join(root, file), target_dir)] when [root]
    is the directory [current_rel] below [target_dir]. *)
Definition rel_join (current_rel entry : string) : string :=
  if bool_decide (current_rel = "") then entry else join current_rel entry.

(** *** [generate_tree] *)

(** First loop: keep the entries that are not ignored. *)
Definition filter_step (current_rel : string) (filtered_entries : list string)
    (entry : string) : list string :=
  let entry_rel := rel_join current_rel entry in
  if should_ignore entry_rel spec extra_ignore_files extra_ignore_extensions
  then filtered_entries
  else filtered_entries ++ [entry].

Definition filter_entries (current_rel : string) (entries : list string)
  : list string :=
  fold_left (filter_step current_rel) entries [].

(** An entry of the directory [current_rel] survives the first loop. *)
Definition kept (current_rel entry : string) : Prop :=
  should_ignore (rel_join current_rel entry) spec extra_ignore_files
    extra_ignore_extensions = false.

#[global] Instance kept_dec current_rel entry :
  Decision (kept current_rel entry).
Proof. unfold kept. apply _. Defined.

Definition connector_of (index count : nat) : string :=
  if (Z.of_nat index =? Z.of_nat count - 1)%Z then "└── " else "├── ".

Definition extension_of (index count : nat) : string :=
  if (Z.of_nat index =? Z.of_nat count - 1)%Z then "    " else "│   ".

(** Second loop, over [enumerate(filtered_entries)] from [index] on;
    [self] is the recursive call. *)
Fixpoint render_loop (self : node → string → string → option (list string))
    (dir : node) (current_rel prefix : string) (count index : nat)
    (todo : list string) (tree_lines : list string) : option (list string) :=
  match todo with
  | [] => Some tree_lines
  | entry :: todo' =>
      let connector := connector_of index count in
      let line := (prefix +:+ connector) +:+ entry in
      let tree_lines := tree_lines ++ [line] in
      let entry_rel := rel_join current_rel entry in
      match subdir (child dir entry) with
      | Some c =>
          let extension := extension_of index count in
          sub ← self c entry_rel (prefix +:+ extension);
          render_loop self dir current_rel prefix count (S index) todo'
            (tree_lines ++ sub)
      | None =>
          render_loop self dir current_rel prefix count (S index) todo'
            tree_lines
      end
  end.

(** [dir] is the object at [os.path.join(root, current_rel)].  The
    result is [None] only when the recursion is deeper than [fuel]. *)
Fixpoint generate_tree (fuel : nat) (dir : node) (current_rel prefix : string)
  : option (list string) :=
  match fuel with
  | O => None
  | S fuel' =>
      match listdir dir with
      | None => Some []
      | Some names =>
          let entries := sorted names in
          let filtered_entries := filter_entries current_rel entries in
          let count := length filtered_entries in
          render_loop (generate_tree fuel') dir current_rel prefix count 0
            filtered_entries []
      end
  end.

(** *** The walk of [main] *)

(** Body of [for file in files]. *)
Definition emit_file (dir : node) (root_rel : string) (st : state)
    (file : string) : state :=
  let rel_path := rel_join root_rel file in
  if should_ignore rel_path spec extra_ignore_files extra_ignore_extensions
  then st
  else
    match read_text (child dir file) with
    | inr e => print ("Skipping file " +:+ rel_path +:+ ", reason: " +:+ e) st
    | inl content =>
        let st := write ("===== " +:+ rel_path +:+ " =====" +:+ nl) st in
        let st := write ("```" +:+ nl) st in
        let st := write content st in
        write (nl +:+ "```" +:+ nl +:+ nl) st
    end.

(** [os.walk] sorts the scanned entries into [dirs] and [nondirs]. *)
Definition walk_dirs (es : list (string * node)) : list string :=
  (filter (λ e, is_dir e.2 = true) es).*1.
Definition walk_files (es : list (string * node)) : list string :=
  (filter (λ e, is_dir e.2 = false) es).*1.

(** [os.walk] descending into what is left of [dirs]; with
    [followlinks=False] a name that is a symbolic link is passed over. *)
Fixpoint walk_loop (self : node → string → state → option state)
    (dir : node) (root_rel : string) (dirs : list string) (st : state)
  : option state :=
  match dirs with
  | [] => Some st
  | d :: dirs' =>
      match child dir d with
      | Some c =>
          if is_link c then walk_loop self dir root_rel dirs' st
          else
            st' ← self c (rel_join root_rel d) st;
            walk_loop self dir root_rel dirs' st'
      | None => walk_loop self dir root_rel dirs' st
      end
  end.

(** [for root, dirs, files in os.walk(target_dir)] with its body, for the
    directory [top] found [root_rel] below [target_dir]: the files of
    [top] first, then the directories left in [dirs], one after the other
    ([os.walk] yields nothing for a directory it cannot scan).  The result
    is [None] only when the tree is deeper than [fuel]. *)
Fixpoint emit_walk (fuel : nat) (top : node) (root_rel : string) (st : state)
  : option state :=
  match fuel with
  | O => None
  | S fuel' =>
      match entries_of top with
      | None => Some st
      | Some es =>
          let dirs := walk_dirs es in
          let files := walk_files es in
          let dirs := filter (λ d, d ∉ extra_ignore_files) dirs in
          let st := fold_left (emit_file top root_rel) files st in
          walk_loop (emit_walk fuel') top root_rel dirs st
      end
  end.

End collector.

(** ** [main] *)
Record Args := {
  target_dir_name : string;
  no_tree : bool;
  ignore_files : list string;
  ignore_extensions : list string
}.

Inductive outcome :=
| SysExit (message : string)
| Raised (reason : string)
| Finished (st : state).

Definition description (target_dir_name : string) : string :=
  "This markdown file consolidates the project directory structure and source code contents for analysis by a large language model." +:+ nl +:+
  "Target project directory: '" +:+ target_dir_name +:+ "'." +:+ nl +:+
  "Each file's content is enclosed in its own markdown code block for better clarity." +:+ nl.

(** The name set after the [.git] check. *)
Definition name_set (args : Args) (target : node) : gset string :=
  let extra_ignore_files : gset string := list_to_set (ignore_files args) in
  if isdir (child target ".git") then extra_ignore_files ∪ {[ ".git" ]}
  else extra_ignore_files.

Definition write_tree (tree_lines : list string) (st : state) : state :=
  let st := write ("#### Project Directory Tree" +:+ nl +:+ nl) st in
  let st := write ("```" +:+ nl) st in
  let st := fold_left (λ st line, write (line +:+ nl) st) tree_lines st in
  write ("```" +:+ nl +:+ nl) st.

(** The header and, unless [--no-tree] is given, the tree listing. *)
Definition preamble (fuel : nat) (args : Args) (target : node)
    (spec : option pathspec.PathSpec)
    (extra_ignore_files extra_ignore_extensions : gset string)
  : option state :=
  let st := {| outf := []; stdout := [] |} in
  let st := write (description (target_dir_name args) +:+ nl +:+ nl) st in
  if negb (no_tree args) then
    tree_lines ← generate_tree spec extra_ignore_files
                   extra_ignore_extensions fuel target "" "";
    Some (write_tree tree_lines st)
  else Some st.

(** Everything after the ignore rules are set up. *)
Definition run (fuel : nat) (args : Args) (target : node)
    (spec : option pathspec.PathSpec)
    (extra_ignore_files extra_ignore_extensions : gset string)
  : option state :=
  st ← preamble fuel args target spec extra_ignore_files
         extra_ignore_extensions;
  emit_walk spec extra_ignore_files extra_ignore_extensions fuel target "" st.


Section main.

(** [pathspec.PathSpec.from_lines("gitwildmatch", text.splitlines())]:
    the compiled patterns, or the reason of the exception raised on a line
    that is not a valid pattern. *)
Variable from_lines : string → pathspec.PathSpec + string.

Definition load_gitignore_spec (gitignore : option node)
  : pathspec.PathSpec + string :=
  match read_text gitignore with
  | inl text => from_lines text
  | inr e => inr e
  end.

(** The matcher [main] ends up with: [None] without a [.gitignore]
    file; reading the file and compiling its lines may raise. *)
Definition gitignore_spec (target : node)
  : option pathspec.PathSpec + string :=
  let gitignore := child target ".gitignore" in
  if isfile gitignore
  then match load_gitignore_spec gitignore with
       | inl s => inl (Some s)
       | inr e => inr e
       end
  else inl None.

(** The output file is taken to open for writing. *)
Definition main (fuel : nat) (args : Args) (target : node) : option outcome :=
  let extra_ignore_extensions : gset string :=
    list_to_set (ignore_extensions args) in
  if negb (is_dir target)
  then Some (SysExit "目标目录不存在或不是一个目录。")
  else
    let extra_ignore_files := name_set args target in
    match gitignore_spec target with
    | inr e => Some (Raised e)
    | inl spec =>
        st ← run fuel args target spec extra_ignore_files
               extra_ignore_extensions;
        Some (Finished st)
    end.

End main.

(** ** Notions used to state the properties *)

(** Depth of the tree below a node: the recursion of [generate_tree] and
    of the walk never goes deeper. *)
Fixpoint height (x : node) : nat :=
  match x with
  | File _ => 0
  | Dir None | DirLink None => 0
  | Dir (Some es) | DirLink (Some es) =>
      S (foldr (λ e h, height e.2 `max` h) 0 es)
  end.

(** Names a directory can list: not empty, no ['/']. *)
Definition valid_name (n : string) : bool :=
  negb (bool_decide (n = "")) && negb (has_sep n).

(** A directory never lists a name twice, and lists valid names only. *)
Fixpoint well_formed (x : node) : bool :=
  match x with
  | File _ => true
  | Dir None | DirLink None => true
  | Dir (Some es) | DirLink (Some es) =>
      bool_decide (NoDup es.*1) && forallb valid_name es.*1
      && forallb (λ e, well_formed e.2) es
  end.

(** The relative path spelled by a list of names, outermost first. *)
Definition rel_of (names : list string) : string :=
  fold_left rel_join names "".

(** The object reached from [top] through the names [ds]. *)
Fixpoint resolve (top : node) (ds : list string) : option node :=
  match ds with
  | [] => Some top
  | d :: ds' => c ← child top d; resolve c ds'
  end.

(** The directory the walk reaches from [top] through the directories
    [ds]: none of them is pruned, none is a symbolic link. *)
Fixpoint descend (N : gset string) (top : node) (ds : list string) : option node :=
  match ds with
  | [] => Some top
  | d :: ds' =>
      match child top d with
      | Some (Dir l) => if bool_decide (d ∈ N) then None else descend N (Dir l) ds'
      | _ => None
      end
  end.


(** What one file section consists of. *)
Definition section_writes (rel_path content : string) : list string :=
  [ "===== " +:+ rel_path +:+ " =====" +:+ nl;
    "```" +:+ nl;
    content;
    nl +:+ "```" +:+ nl +:+ nl ].

(** The line printed for a file that cannot be read. *)
Definition diagnostic (rel_path reason : string) : string :=
  "Skipping file " +:+ rel_path +:+ ", reason: " +:+ reason.

(** The sections and the diagnostics of a sequence of read attempts. *)
Definition sections_of (vs : list (string * (string + string)))
  : list (string * string) :=
  omap (λ v, match v.2 with inl c => Some (v.1, c) | inr _ => None end) vs.
Definition failures_of (vs : list (string * (string + string)))
  : list (string * string) :=
  omap (λ v, match v.2 with inr e => Some (v.1, e) | inl _ => None end) vs.

(** One read attempt of the walk: a section, or a diagnostic. *)
Definition record_visit (st : state) (v : string * (string + string)) : state :=
  match v.2 with
  | inl content => fold_left (λ st s, write s st) (section_writes v.1 content) st
  | inr e => print (diagnostic v.1 e) st
  end.

(** The file [cs] below [top] is met by the walk and not ignored; [rcs]
    are the names leading from [target_dir] to [top], [data] is what
    reading the file gives. *)
Definition visited (spec : option pathspec.PathSpec) (N E : gset string)
    (rcs : list string) (top : node) (cs : list string)
    (data : string + string) : Prop :=
  ∃ ds f dir,
    cs = ds ++ [f]
    ∧ descend N top ds = Some dir
    ∧ child dir f = Some (File data)
    ∧ should_ignore (rel_of (rcs ++ cs)) spec N E = false.

(** A file can have several names under the target directory (hard
    links, symbolic links to it), each of them a [File] of the tree.  Which
    names belong to one file is recorded beside the tree, by the number of
    the file ([st_ino]) found under each list of names; names of one file
    give the same data. *)
Definition numbering_sound (file_of : list string → nat) (target : node)
  : Prop :=
  ∀ cs cs' x x',
    resolve target cs = Some (File x) →
    resolve target cs' = Some (File x') →
    file_of cs = file_of cs' → x = x'.

(** No file is the subject of two of the sections headed by [paths]. *)
Definition no_file_twice (file_of : list string → nat)
    (paths : list (list string)) : Prop :=
  NoDup (file_of <$> paths).

(** The directory without its entries named [name]. *)
Definition without_entry (name : string) (es : list (string * node))
  : list (string * node) :=
  filter (λ e, e.1 ≠ name) es.


(** What [write_tree] adds to the output file for the lines of a tree. *)
Definition tree_writes (tree_lines : list string) : list string :=
  [ "#### Project Directory Tree" +:+ nl +:+ nl; "```" +:+ nl ]
  ++ ((λ line, line +:+ nl) <$> tree_lines)
  ++ [ "```" +:+ nl +:+ nl ].

(** The tree below a node without the entries named [n], at every depth. *)
Fixpoint prune (n : string) (x : node) : node :=
  match x with
  | File data => File data
  | Dir None => Dir None
  | DirLink None => DirLink None
  | Dir (Some es) =>
      Dir (Some (omap (λ e, if bool_decide (e.1 = n) then None
                            else Some (e.1, prune n e.2)) es))
  | DirLink (Some es) =>
      DirLink (Some (omap (λ e, if bool_decide (e.1 = n) then None
                                else Some (e.1, prune n e.2)) es))
  end.

(** The tree below a node with the content of every file forgotten. *)
Fixpoint shape (x : node) : node :=
  match x with
  | File _ => File (inl "")
  | Dir None => Dir None
  | DirLink None => DirLink None
  | Dir (Some es) => Dir (Some ((λ e, (e.1, shape e.2)) <$> es))
  | DirLink (Some es) => DirLink (Some ((λ e, (e.1, shape e.2)) <$> es))
  end.

(** The directory [generate_tree] reaches from [top] through the names
    [ds]: each is a directory, reached through a link or not, whose
    relative path is not ignored; [rcs] are the names leading from
    [target_dir] to [top]. *)
Fixpoint tree_descend (spec : option pathspec.PathSpec) (N E : gset string)
    (rcs : list string) (top : node) (ds : list string) : option node :=
  match ds with
  | [] => Some top
  | d :: ds' =>
      match subdir (child top d) with
      | Some c =>
          if should_ignore (rel_of (rcs ++ [d])) spec N E then None
          else tree_descend spec N E (rcs ++ [d]) c ds'
      | None => None
      end
  end.

(** None of the directories reached from [top] through the names [ds]
    is a symbolic link. *)
Fixpoint link_free (top : node) (ds : list string) : bool :=
  match ds with
  | [] => true
  | d :: ds' =>
      match child top d with
      | Some c => negb (is_link c) && link_free c ds'
      | None => true
      end
  end.

(** The entry [cs] below [top] has a line in the tree: it is reached
    through directories that are not ignored and is not ignored itself. *)
Definition listed (spec : option pathspec.PathSpec) (N E : gset string)
    (rcs : list string) (top : node) (cs : list string) : Prop :=
  ∃ ds n dir x,
    cs = ds ++ [n]
    ∧ tree_descend spec N E rcs top ds = Some dir
    ∧ child dir n = Some x
    ∧ should_ignore (rel_of (rcs ++ cs)) spec N E = false.

(** The part of a tree line between the caller's prefix and the name: one
    segment for each of the [k] ancestors below the rendered directory,
    then a connector. *)
Definition is_guide (k : nat) (g : string) : Prop :=
  ∃ (segments : list string) (connector : string),
    length segments = k
    ∧ Forall (λ s, s = "    " ∨ s = "│   ") segments
    ∧ (connector = "└── " ∨ connector = "├── ")
    ∧ g = foldr String.append connector segments.

(** [line] is the tree line of the entry [cs], rendered under [prefix]. *)
Definition line_for (prefix : string) (cs : list string) (line : string) : Prop :=
  ∃ name g,
    last cs = Some name
    ∧ is_guide (length cs - 1) g
    ∧ line = (prefix +:+ g) +:+ name.

(** * Properties *)

(** ** Strings and paths *)
#[local] Arguments String.append !_ _ / : simpl nomatch.

Section path_facts.

Lemma app_assoc_s (a b c : string) : (a +:+ b) +:+ c = a +:+ (b +:+ c).
Proof. induction a as [|x a IH]; simpl; [done | by rewrite IH]. Qed.

Lemma app_length_s (a b : string) :
  String.length (a +:+ b) = String.length a + String.length b.
Proof. induction a as [|x a IH]; simpl; [done | by rewrite IH]. Qed.

Lemma endswith_refl (s : string) : endswith s s = true.
Proof. destruct s; simpl; [done | by rewrite bool_decide_eq_true_2]. Qed.

Lemma endswith_app (pre suffix : string) : endswith (pre +:+ suffix) suffix = true.
Proof.
  induction pre as [|c pre IH]; simpl.
  - apply endswith_refl.
  - by case_bool_decide.
Qed.

Lemma endswith_spec (s suffix : string) :
  endswith s suffix = true ↔ ∃ pre, s = pre +:+ suffix.
Proof.
  split.
  - induction s as [|c s IH]; simpl; case_bool_decide as Heq; intros H;
      try (by exists ""; subst); try done.
    destruct (IH H) as [pre ->]. by exists (String c pre).
  - intros [pre ->]. apply endswith_app.
Qed.

Lemma has_sep_app (a b : string) : has_sep (a +:+ b) = has_sep a || has_sep b.
Proof. induction a as [|c a IH]; simpl; [done | by rewrite IH, orb_assoc]. Qed.

Lemma basename_no_sep (n : string) : has_sep n = false → basename n = n.
Proof.
  destruct n as [|c n]; simpl; [done |].
  intros [-> ->]%orb_false_iff. done.
Qed.

Lemma basename_after_sep (a n : string) :
  has_sep n = false → basename (a +:+ "/" +:+ n) = n.
Proof.
  intros Hn. induction a as [|c a IH]; simpl.
  - by rewrite Hn.
  - rewrite has_sep_app. simpl. by rewrite orb_true_r.
Qed.

Lemma no_sep_not_starts (n : string) : has_sep n = false → starts_with_sep n = false.
Proof. destruct n; simpl; [done | by intros [-> _]%orb_false_iff]. Qed.

(** The relative path of an entry named [n] (a name holds no ['/'])
    has [n] as its basename, in whatever directory the entry lies. *)
Lemma basename_rel_join (current_rel n : string) :
  has_sep n = false → basename (rel_join current_rel n) = n.
Proof.
  intros Hn. unfold rel_join, join.
  case_bool_decide as Hcur; [by apply basename_no_sep |].
  rewrite (no_sep_not_starts _ Hn). simpl.
  destruct (endswith current_rel "/") eqn:He.
  - apply endswith_spec in He as [pre ->].
    rewrite app_assoc_s. by apply basename_after_sep.
  - by apply basename_after_sep.
Qed.

End path_facts.

(** ** The ignore predicate *)
Section ignore_facts.

Lemma match_file_no_patterns (s : pathspec.PathSpec) (p : string) :
  pathspec.len s = 0 → pathspec.match_file s p = false.
Proof.
  unfold pathspec.len, pathspec.match_file.
  destruct (pathspec.patterns s); [done | discriminate].
Qed.

(** The truthiness test in front of [spec.match_file] never changes the
    outcome: a falsy [spec] matches nothing. *)
Lemma check_spec_match (spec : option pathspec.PathSpec) (p : string) :
  check_spec spec p = spec_match_file spec p.
Proof.
  unfold check_spec. destruct spec as [s|]; simpl; [|done].
  destruct (pathspec.len s =? 0) eqn:Hl; simpl; [|done].
  apply Nat.eqb_eq in Hl. by rewrite match_file_no_patterns.
Qed.

Lemma should_ignore_orb p spec (N E : gset string) :
  should_ignore p spec N E =
    check_name N p || check_extension E p || check_spec spec p.
Proof.
  unfold should_ignore, check_name, check_extension, check_spec.
  repeat case_match; simpl in *; congruence.
Qed.

Lemma check_extension_spec (E : gset string) (p : string) :
  check_extension E p = true ↔ ∃ ext, ext ∈ E ∧ endswith p ext = true.
Proof.
  unfold check_extension. rewrite existsb_exists.
  split; intros (ext & Hin & He); exists ext; split; try done.
  - by apply elem_of_elements, list_elem_of_In.
  - by apply list_elem_of_In, elem_of_elements.
Qed.

Lemma first_hit_Permutation (cs cs' : list (string → bool)) (p : string) :
  cs ≡ₚ cs' → first_hit cs p = first_hit cs' p.
Proof.
  induction 1 as [|c l l' _ IH|c d l|l l' l'' _ IH1 _ IH2]; simpl.
  - done.
  - by rewrite IH.
  - by destruct (c p), (d p).
  - by rewrite IH1.
Qed.

End ignore_facts.

(** C1: [should_ignore] answers [True] exactly when the basename is in the
    name set, or the path ends with a member of the extension set, or a
    matcher is present and matches the path; running the three tests in
    any other order gives the same answer. *)
Theorem should_ignore_iff_any_order :
  ∀ (p : string) (m : option pathspec.PathSpec) (N E : gset string),
    (should_ignore p m N E = true ↔
       basename p ∈ N
       ∨ (∃ ext, ext ∈ E ∧ endswith p ext = true)
       ∨ (∃ s, m = Some s ∧ pathspec.match_file s p = true))
    ∧ (∀ checks,
         checks ≡ₚ [check_name N; check_extension E; check_spec m] →
         first_hit checks p = should_ignore p m N E).
Proof.
  intros p m N E. split.
  - rewrite should_ignore_orb, !orb_true_iff, check_extension_spec,
      check_spec_match.
    unfold check_name. rewrite bool_decide_eq_true.
    split.
    + intros [[?|?]|Hm]; [by left | by right; left |].
      right; right. destruct m as [s|]; [by exists s | done].
    + intros [?|[?|(s & -> & Hm)]]; [by left; left | by left; right | by right].
  - intros checks Hperm.
    rewrite (first_hit_Permutation _ _ p Hperm), should_ignore_orb. simpl.
    by destruct (check_name N p), (check_extension E p), (check_spec m p).
Qed.

Lemma should_ignore_iff_any_order_witness :
  should_ignore "build/a.log" None ∅ {[ ".log" ]} = true
  ∧ first_hit [check_spec None; check_name ∅; check_extension {[ ".log" ]}]
      "build/a.log" = should_ignore "build/a.log" None ∅ {[ ".log" ]}.
Proof.
  destruct (should_ignore_iff_any_order "build/a.log" None ∅ {[ ".log" ]})
    as [Hiff Hord].
  split.
  - apply Hiff. right; left. exists ".log". split; [set_solver | reflexivity].
  - apply Hord.
    apply (Permutation_cons_append
             [check_name ∅; check_extension {[ ".log" ]}] (check_spec None)).
Defined.

Section suffix_facts.

Lemma endswith_trans (a b c : string) :
  endswith a b = true → endswith b c = true → endswith a c = true.
Proof.
  rewrite !endswith_spec. intros [p ->] [q ->].
  exists (p +:+ q). by rewrite app_assoc_s.
Qed.

Lemma endswith_rel_join (parent p : string) :
  endswith (rel_join parent p) p = true.
Proof.
  unfold rel_join, join. apply endswith_spec.
  case_bool_decide; [by exists "" |].
  destruct (starts_with_sep p); [by exists "" |].
  destruct (_ || _); [by exists parent |].
  exists (parent +:+ "/"). by rewrite app_assoc_s.
Qed.

Lemma should_ignore_extension p spec (N E : gset string) (ext : string) :
  ext ∈ E → endswith p ext = true → should_ignore p spec N E = true.
Proof.
  intros Hin He. rewrite should_ignore_orb.
  assert (check_extension E p = true) as ->
    by (apply check_extension_spec; eauto).
  by rewrite orb_true_r.
Qed.

Lemma should_ignore_name p spec (N E : gset string) :
  basename p ∈ N → should_ignore p spec N E = true.
Proof.
  intros Hin. unfold should_ignore. by rewrite bool_decide_eq_true_2.
Qed.

End suffix_facts.

(** C6: a path ending with a member of the extension set is ignored,
    whatever the matcher and the name set say; the suffix is looked for in
    the whole relative path, so the same holds for the path of the entry
    below any parent directory, and a suffix reaching across a ['/'] is
    honoured although the basename alone does not end with it. *)
Theorem extension_suffix_whole_path :
  ∀ (p ext : string) (spec : option pathspec.PathSpec) (N E : gset string),
    ext ∈ E → endswith p ext = true →
    should_ignore p spec N E = true
    ∧ (∀ parent, should_ignore (rel_join parent p) spec N E = true)
    ∧ (should_ignore "doc/notes" None ∅ {[ "c/notes" ]} = true
       ∧ endswith (basename "doc/notes") "c/notes" = false).
Proof.
  intros p ext spec N E Hin He. split; [|split].
  - by apply should_ignore_extension with ext.
  - intros parent. apply should_ignore_extension with ext; [done |].
    eapply endswith_trans; [apply endswith_rel_join | done].
  - split; [|reflexivity].
    apply should_ignore_extension with "c/notes"; [set_solver | reflexivity].
Qed.

Lemma extension_suffix_whole_path_witness :
  should_ignore "a.log" None ∅ {[ ".log" ]} = true
  ∧ should_ignore (rel_join "build/out" "a.log") None ∅ {[ ".log" ]} = true.
Proof.
  assert (H : (".log" : string) ∈ ({[ ".log" ]} : gset string)) by set_solver.
  destruct (extension_suffix_whole_path "a.log" ".log" None ∅ {[ ".log" ]} H
              eq_refl) as (H1 & H2 & _).
  split; [exact H1 | exact (H2 "build/out")].
Defined.

(** C10: the extension test compares raw characters at the end of the
    relative path: whatever precedes a member [s] of the extension set, be
    it a dot, a separator or a letter, the path is ignored; with ["log"]
    in the set, a file named ["catalog"] is ignored. *)
Theorem extension_suffix_no_boundary :
  ∀ (s pre : string) (spec : option pathspec.PathSpec) (N E : gset string),
    s ∈ E →
    should_ignore (pre +:+ s) spec N E = true
    ∧ should_ignore "catalog" None ∅ {[ "log" ]} = true.
Proof.
  intros s pre spec N E Hin. split.
  - apply should_ignore_extension with s; [done | apply endswith_app].
  - apply should_ignore_extension with "log"; [set_solver | reflexivity].
Qed.

Lemma extension_suffix_no_boundary_witness :
  should_ignore ("cata" +:+ "log") None ∅ {[ "log" ]} = true.
Proof.
  assert (H : ("log" : string) ∈ ({[ "log" ]} : gset string)) by set_solver.
  exact (proj1 (extension_suffix_no_boundary "log" "cata" None ∅ {[ "log" ]} H)).
Defined.

(** ** The filtering loop of [generate_tree] *)
Section filter_facts.

Context (spec : option pathspec.PathSpec) (N E : gset string).

Lemma filter_entries_acc current_rel entries acc :
  fold_left (filter_step spec N E current_rel) entries acc
  = acc ++ filter (kept spec N E current_rel) entries.
Proof.
  revert acc. induction entries as [|e es IH]; intros acc; simpl.
  - by rewrite app_nil_r.
  - rewrite IH, filter_cons. unfold filter_step.
    destruct (should_ignore _ _ _ _) eqn:Hs.
    + rewrite decide_False; [done |]. unfold kept. by rewrite Hs.
    + rewrite decide_True by done. by rewrite <- app_assoc.
Qed.

Lemma filter_entries_filter current_rel entries :
  filter_entries spec N E current_rel entries
  = filter (kept spec N E current_rel) entries.
Proof. apply filter_entries_acc. Qed.

Lemma elem_of_filter_entries current_rel entries x :
  x ∈ filter_entries spec N E current_rel entries
  ↔ kept spec N E current_rel x ∧ x ∈ entries.
Proof. rewrite filter_entries_filter. apply list_elem_of_filter. Qed.

End filter_facts.

(** ** Sorting names *)
Section sorted_facts.

Lemma sorted_Permutation (names : list string) : sorted names ≡ₚ names.
Proof. apply merge_sort_Permutation. Qed.

Lemma sorted_StronglySorted (names : list string) :
  StronglySorted String.le (sorted names).
Proof. apply StronglySorted_merge_sort; apply _. Qed.

Lemma elem_of_sorted (names : list string) (x : string) :
  x ∈ sorted names ↔ x ∈ names.
Proof. by rewrite sorted_Permutation. Qed.



Lemma StronglySorted_filter_s {A} (R : relation A) (P : A → Prop)
    `{∀ x, Decision (P x)} (l : list A) :
  StronglySorted R l → StronglySorted R (filter P l).
Proof.
  induction 1 as [|x l Hl IH Hx]; [constructor |].
  rewrite filter_cons. case_decide; [|done].
  constructor; [done |].
  apply Forall_forall. intros y [_ Hy]%list_elem_of_filter.
  by eapply Forall_forall in Hx.
Qed.



End sorted_facts.

(** ** Depth of the scanned tree *)
Section height_facts.

Lemma height_lookup_entry name (es : list (string * node)) c :
  lookup_entry name es = Some c →
  height c ≤ foldr (λ e h, height e.2 `max` h) 0 es.
Proof.
  induction es as [|[n x] es IH]; simpl; [done |].
  case_bool_decide; intros Hc; simplify_eq; [lia |].
  specialize (IH Hc). lia.
Qed.

Lemma height_child dir name c :
  child dir name = Some c → height c < height dir.
Proof.
  unfold child. destruct dir as [|[es|]|[es|]]; simpl; try done.
  - intros Hc%height_lookup_entry. lia.
  - intros Hc%height_lookup_entry. lia.
Qed.

Lemma subdir_Some o c : subdir o = Some c ↔ o = Some c ∧ is_dir c = true.
Proof.
  unfold subdir. destruct o as [x|]; [|split; [done | by intros [? _]]].
  destruct (is_dir x) eqn:Hx; split.
  - by intros [= ->].
  - by intros [[= ->] _].
  - done.
  - intros [[= ->] Hc]. congruence.
Qed.

Lemma height_subdir dir name c :
  subdir (child dir name) = Some c → height c < height dir.
Proof. intros [Hc _]%subdir_Some. by eapply height_child. Qed.

End height_facts.

(** ** The rendering loop of [generate_tree] *)
Section render_facts.

Context (spec : option pathspec.PathSpec) (N E : gset string).


(** Every entry of [todo] contributes one block: its own line, followed
    by the lines of the recursive call when the entry is a directory. *)
Lemma render_loop_blocks self dir current_rel prefix count :
  ∀ todo index tree_lines,
    (∀ e c, e ∈ todo → subdir (child dir e) = Some c →
            ∀ r p, is_Some (self c r p)) →
    ∃ blocks,
      render_loop self dir current_rel prefix count index todo tree_lines
      = Some (tree_lines ++ concat blocks)
      ∧ length blocks = length todo
      ∧ ∀ k name, todo !! k = Some name →
          ∃ sub,
            blocks !! k
            = Some (((prefix +:+ connector_of (index + k) count) +:+ name) :: sub)
            ∧ match subdir (child dir name) with
              | Some c =>
                  self c (rel_join current_rel name)
                    (prefix +:+ extension_of (index + k) count) = Some sub
              | None => sub = []
              end.
Proof.
  induction todo as [|entry todo IH]; intros index tree_lines Hself.
  - exists []. simpl. rewrite app_nil_r. repeat split; [done..|].
    intros k name Hk. by rewrite lookup_nil in Hk.
  - assert (Hrest : ∀ e c, e ∈ todo → subdir (child dir e) = Some c →
              ∀ r p, is_Some (self c r p)).
    { intros e c He. apply Hself. by right. }
    set (line := (prefix +:+ connector_of index count) +:+ entry).
    assert (∃ sub,
              match subdir (child dir entry) with
              | Some c =>
                  self c (rel_join current_rel entry)
                    (prefix +:+ extension_of index count) = Some sub
              | None => sub = []
              end) as [sub Hsub].
    { destruct (subdir (child dir entry)) as [c|] eqn:Hc; [|by exists []].
      destruct (Hself entry c (list_elem_of_here _ _) Hc
                  (rel_join current_rel entry)
                  (prefix +:+ extension_of index count)) as [sub Hs].
      by exists sub. }
    destruct (IH (S index) ((tree_lines ++ [line]) ++ sub) Hrest)
      as (blocks & Hrun & Hlen & Hblocks).
    exists ((line :: sub) :: blocks). split; [|split].
    + simpl. fold line.
      destruct (subdir (child dir entry)) as [c|] eqn:Hc.
      * rewrite Hsub. simpl. rewrite Hrun. by rewrite <- !app_assoc.
      * subst sub. rewrite app_nil_r in Hrun. rewrite Hrun.
        by rewrite <- !app_assoc.
    + simpl. by rewrite Hlen.
    + intros [|k] name Hk; simpl in Hk.
      * simplify_eq. exists sub. rewrite Nat.add_0_r. done.
      * destruct (Hblocks k name Hk) as (sub' & Hb & Hs).
        exists sub'. replace (index + S k) with (S index + k) by lia. done.
Qed.

(** With enough fuel [generate_tree] returns. *)
Lemma generate_tree_total fuel :
  ∀ dir current_rel prefix,
    height dir < fuel →
    is_Some (generate_tree spec N E fuel dir current_rel prefix).
Proof.
  induction fuel as [|fuel IH]; intros dir current_rel prefix Hh; [lia |].
  simpl. destruct (listdir dir) as [names|]; [|by eexists].
  destruct (render_loop_blocks (generate_tree spec N E fuel) dir current_rel
              prefix
              (length (filter_entries spec N E current_rel (sorted names))) 
              (filter_entries spec N E current_rel (sorted names)) 0 [])
    as (blocks & -> & _); [|by eexists].
  intros e c _ Hc r p. apply IH. apply height_subdir in Hc. lia.
Qed.

End render_facts.



(** ** Termination of the walk and of [main] *)
Section total_facts.

Context (spec : option pathspec.PathSpec) (N E : gset string).

Lemma walk_loop_total self dir root_rel :
  ∀ dirs st,
    (∀ d c, child dir d = Some c → ∀ r s, is_Some (self c r s)) →
    is_Some (walk_loop self dir root_rel dirs st).
Proof.
  induction dirs as [|d dirs IH]; intros st Hself; simpl; [by eexists |].
  destruct (child dir d) as [c|] eqn:Hc; [|by apply IH].
  destruct (is_link c); [by apply IH |].
  destruct (Hself d c Hc (rel_join root_rel d) st) as [st' ->]. simpl.
  by apply IH.
Qed.

Lemma emit_walk_total fuel :
  ∀ top root_rel st,
    height top < fuel → is_Some (emit_walk spec N E fuel top root_rel st).
Proof.
  induction fuel as [|fuel IH]; intros top root_rel st Hh; [lia |].
  simpl. destruct (entries_of top) as [es|]; [|by eexists].
  apply walk_loop_total. intros d c Hc r s. apply IH.
  apply height_child in Hc. lia.
Qed.

Lemma run_total fuel args target :
  height target < fuel → is_Some (run fuel args target spec N E).
Proof.
  intros Hh. unfold run, preamble.
  destruct (negb (no_tree args)); simpl.
  - destruct (generate_tree_total spec N E fuel target "" "" Hh) as [ls ->].
    simpl. by apply emit_walk_total.
  - by apply emit_walk_total.
Qed.

End total_facts.


(** ** A directory that cannot be listed *)
Section unlistable_facts.

Context (spec : option pathspec.PathSpec) (N E : gset string).




End unlistable_facts.



(** ** Entries of a directory *)
Section entry_facts.

Lemma lookup_entry_Some name (es : list (string * node)) x :
  lookup_entry name es = Some x → (name, x) ∈ es.
Proof.
  induction es as [|[n y] es IH]; simpl; [done |].
  case_bool_decide; intros Hx; simplify_eq; [left | right; auto].
Qed.

Lemma lookup_entry_NoDup name (es : list (string * node)) x :
  NoDup es.*1 → (name, x) ∈ es → lookup_entry name es = Some x.
Proof.
  induction es as [|[n y] es IH]; simpl; intros Hnd Hin.
  - by apply elem_of_nil in Hin.
  - apply NoDup_cons in Hnd as [Hn Hnd].
    apply elem_of_cons in Hin as [Heq|Hin].
    + simplify_eq. by rewrite bool_decide_eq_true_2.
    + rewrite bool_decide_eq_false_2; [by apply IH |].
      intros ->. apply Hn. apply list_elem_of_fmap. by exists (name, x).
Qed.

Lemma NoDup_fst_unique {A B} (l : list (A * B)) a x y :
  NoDup l.*1 → (a, x) ∈ l → (a, y) ∈ l → x = y.
Proof.
  induction l as [|[b z] l IH]; intros Hnd Hx Hy.
  - by apply elem_of_nil in Hx.
  - rewrite fmap_cons in Hnd. apply NoDup_cons in Hnd as [Hb Hnd].
    simpl in Hb.
    apply elem_of_cons in Hx as [Hx|Hx], Hy as [Hy|Hy]; simplify_eq.
    + done.
    + destruct Hb. apply list_elem_of_fmap. by exists (b, y).
    + destruct Hb. apply list_elem_of_fmap. by exists (b, x).
    + by apply IH.
Qed.

Lemma lookup_entry_name name (es : list (string * node)) x :
  lookup_entry name es = Some x → name ∈ es.*1.
Proof.
  intros H%lookup_entry_Some. apply list_elem_of_fmap. by exists (name, x).
Qed.

Lemma elem_of_walk_files (es : list (string * node)) f :
  f ∈ walk_files es ↔ ∃ x, (f, x) ∈ es ∧ is_dir x = false.
Proof.
  unfold walk_files. rewrite list_elem_of_fmap. split.
  - intros ([n x] & -> & [Hd Hin]%list_elem_of_filter). by exists x.
  - intros (x & Hin & Hd). exists (f, x). split; [done |].
    by apply list_elem_of_filter.
Qed.

Lemma elem_of_walk_dirs (es : list (string * node)) d :
  d ∈ walk_dirs es ↔ ∃ x, (d, x) ∈ es ∧ is_dir x = true.
Proof.
  unfold walk_dirs. rewrite list_elem_of_fmap. split.
  - intros ([n x] & -> & [Hd Hin]%list_elem_of_filter). by exists x.
  - intros (x & Hin & Hd). exists (d, x). split; [done |].
    by apply list_elem_of_filter.
Qed.

Lemma NoDup_walk_files (es : list (string * node)) :
  NoDup es.*1 → NoDup (walk_files es).
Proof.
  intros Hnd. eapply sublist_NoDup; [exact Hnd |]. unfold walk_files.
  apply fmap_sublist, sublist_filter.
Qed.

Lemma NoDup_walk_dirs (es : list (string * node)) :
  NoDup es.*1 → NoDup (walk_dirs es).
Proof.
  intros Hnd. eapply sublist_NoDup; [exact Hnd |]. unfold walk_dirs.
  apply fmap_sublist, sublist_filter.
Qed.

Lemma entries_of_Some top (es : list (string * node)) :
  entries_of top = Some es ↔ top = Dir (Some es) ∨ top = DirLink (Some es).
Proof.
  split.
  - destruct top as [|[?|]|[?|]]; intros [=]; subst; auto.
  - by intros [->| ->].
Qed.

Lemma child_entries top (es : list (string * node)) name :
  entries_of top = Some es → child top name = lookup_entry name es.
Proof. intros Hes. unfold child. by rewrite Hes. Qed.

Lemma well_formed_entries top (es : list (string * node)) :
  entries_of top = Some es →
  well_formed top = true →
  NoDup es.*1
  ∧ (∀ n, n ∈ es.*1 → valid_name n = true)
  ∧ (∀ n x, (n, x) ∈ es → well_formed x = true).
Proof.
  intros [->| ->]%entries_of_Some; simpl;
    rewrite !andb_true_iff, bool_decide_eq_true, !forallb_forall;
    intros [[Hnd Hv] Hw]; (split; [done |]); split.
  - intros n Hn. apply Hv. by apply list_elem_of_In.
  - intros n x Hin. apply (Hw (n, x)). by apply list_elem_of_In.
  - intros n Hn. apply Hv. by apply list_elem_of_In.
  - intros n x Hin. apply (Hw (n, x)). by apply list_elem_of_In.
Qed.

End entry_facts.

(** ** What the file loop writes *)
Section visit_facts.

Context (spec : option pathspec.PathSpec) (N E : gset string).

Lemma emit_file_record dir root_rel st file :
  emit_file spec N E dir root_rel st file
  = if should_ignore (rel_join root_rel file) spec N E then st
    else record_visit st (rel_join root_rel file, read_text (child dir file)).
Proof.
  unfold emit_file, record_visit. simpl.
  destruct (should_ignore _ _ _ _); [done |].
  by destruct (read_text (child dir file)).
Qed.

Lemma record_visit_outf st v :
  outf (record_visit st v)
  = outf st ++ match v.2 with
               | inl c => section_writes v.1 c
               | inr _ => []
               end.
Proof.
  unfold record_visit. destruct v as [p [c|e]]; simpl.
  - by rewrite <- !app_assoc.
  - by rewrite app_nil_r.
Qed.

Lemma record_visit_stdout st v :
  stdout (record_visit st v)
  = stdout st ++ match v.2 with
                 | inl _ => []
                 | inr e => [diagnostic v.1 e]
                 end.
Proof.
  unfold record_visit. destruct v as [p [c|e]]; simpl; [|done].
  by rewrite app_nil_r.
Qed.

(** The output file after a sequence of read attempts holds one section
    for each successful one, in order, and nothing else. *)
Lemma record_visits_outf vs st :
  outf (fold_left record_visit vs st)
  = outf st ++ concat (map (λ s, section_writes s.1 s.2) (sections_of vs)).
Proof.
  revert st. induction vs as [|[p [c|e]] vs IH]; intros st; simpl.
  - by rewrite app_nil_r.
  - rewrite IH, record_visit_outf. simpl. by rewrite <- !app_assoc.
  - rewrite IH, record_visit_outf. simpl. by rewrite app_nil_r.
Qed.

(** Standard output holds one diagnostic for each failed attempt. *)
Lemma record_visits_stdout vs st :
  stdout (fold_left record_visit vs st)
  = stdout st ++ map (λ s, diagnostic s.1 s.2) (failures_of vs).
Proof.
  revert st. induction vs as [|[p [c|e]] vs IH]; intros st; simpl.
  - by rewrite app_nil_r.
  - rewrite IH, record_visit_stdout. simpl. by rewrite app_nil_r.
  - rewrite IH, record_visit_stdout. simpl. by rewrite <- !app_assoc.
Qed.

Lemma elem_of_sections_of vs p c :
  (p, c) ∈ sections_of vs ↔ (p, inl c) ∈ vs.
Proof.
  unfold sections_of. rewrite list_elem_of_omap. split.
  - intros ([q [c'|e]] & Hin & Heq); simplify_eq/=. done.
  - intros Hin. by exists (p, inl c).
Qed.

Lemma elem_of_failures_of vs p e :
  (p, e) ∈ failures_of vs ↔ (p, inr e) ∈ vs.
Proof.
  unfold failures_of. rewrite list_elem_of_omap. split.
  - intros ([q [c|e']] & Hin & Heq); simplify_eq/=. done.
  - intros Hin. by exists (p, inr e).
Qed.

Lemma sections_of_sublist vs : (sections_of vs).*1 `sublist_of` vs.*1.
Proof.
  induction vs as [|[p [c|e]] vs IH]; simpl; [done | |].
  - by apply sublist_skip.
  - by apply sublist_cons.
Qed.

(** The file loop, as a sequence of read attempts. *)
Lemma emit_files_visits dir root_rel files st :
  fold_left (emit_file spec N E dir root_rel) files st
  = fold_left record_visit
      ((λ f, (rel_join root_rel f, read_text (child dir f)))
         <$> filter (kept spec N E root_rel) files) st.
Proof.
  revert st. induction files as [|f files IH]; intros st; simpl; [done |].
  rewrite IH, emit_file_record, filter_cons.
  destruct (decide (kept spec N E root_rel f)) as [Hk|Hk]; unfold kept in Hk.
  - by rewrite Hk.
  - by apply not_false_is_true in Hk as ->.
Qed.

End visit_facts.

(** ** The walk, as the sequence of its read attempts *)
Section walk_facts.

Context (spec : option pathspec.PathSpec) (N E : gset string).

(** A read attempt recorded relative to the directory being walked,
    seen from [target_dir], and seen from the parent directory. *)
Local Abbreviation at_root rcs :=
  (λ v : list string * (string + string), (rel_of (rcs ++ v.1), v.2)).
Local Abbreviation below d :=
  (λ v : list string * (string + string), (d :: v.1, v.2)).

Lemma rel_of_snoc rcs d : rel_of (rcs ++ [d]) = rel_join (rel_of rcs) d.
Proof. unfold rel_of. by rewrite fold_left_app. Qed.

Lemma at_root_below rcs d (vs : list (list string * (string + string))) :
  at_root rcs <$> (below d <$> vs) = at_root (rcs ++ [d]) <$> vs.
Proof.
  rewrite <- list_fmap_compose. apply list_fmap_ext.
  intros _ [cs x] _. simpl. by rewrite <- app_assoc.
Qed.

Lemma walk_loop_visits self top rcs
    (P : string → list (list string * (string + string)) → Prop) :
  ∀ dirs st st',
    (∀ d c s s',
       d ∈ dirs → child top d = Some c → is_link c = false →
       self c (rel_of (rcs ++ [d])) s = Some s' →
       ∃ vs, P d vs
             ∧ s' = fold_left record_visit (at_root (rcs ++ [d]) <$> vs) s) →
    (∀ d, d ∈ dirs → is_Some (child top d)) →
    walk_loop self top (rel_of rcs) dirs st = Some st' →
    ∃ dvs : list (string * list (list string * (string + string))),
      dvs.*1 `sublist_of` dirs
      ∧ (∀ d, d ∈ dvs.*1
              ↔ d ∈ dirs ∧ ∃ c, child top d = Some c ∧ is_link c = false)
      ∧ Forall (λ dv, P dv.1 dv.2) dvs
      ∧ st' = fold_left record_visit
                (at_root rcs <$> (dvs ≫= λ dv, below dv.1 <$> dv.2)) st.
Proof.
  induction dirs as [|d dirs IH]; intros st st' Hself Hchild Hrun.
  - simpl in Hrun. simplify_eq. exists []. split; [done |].
    split; [|done]. intros d. simpl. split; [by intros ?%elem_of_nil |].
    by intros [?%elem_of_nil _].
  - simpl in Hrun.
    destruct (Hchild d (list_elem_of_here _ _)) as [c Hc]. rewrite Hc in Hrun.
    destruct (is_link c) eqn:Hl.
    + apply IH in Hrun as (dvs & Hsub & Hmem & Hall & ->).
      * exists dvs. split; [by apply sublist_cons |]. split; [|done].
        intros d'. rewrite Hmem, elem_of_cons. split.
        { intros [Hd' Hex]. split; [by right | done]. }
        intros [[->|Hd'] (c' & Hc' & Hl')]; [|by split; [|exists c']].
        rewrite Hc in Hc'. simplify_eq. congruence.
      * intros d' c' s s' Hd'. apply Hself. by right.
      * intros d' Hd'. apply Hchild. by right.
    + rewrite <- rel_of_snoc in Hrun.
      destruct (self c (rel_of (rcs ++ [d])) st) as [s1|] eqn:Hs1;
        simpl in Hrun; [|done].
      destruct (Hself d c st s1 (list_elem_of_here _ _) Hc Hl Hs1)
        as (vs & HP & ->).
      apply IH in Hrun as (dvs & Hsub & Hmem & Hall & ->).
      * exists ((d, vs) :: dvs). split; [by apply sublist_skip |].
        split; [|split; [by constructor |]].
        -- intros d'. rewrite fmap_cons, !elem_of_cons, Hmem. simpl. split.
           ++ intros [->|[Hd' Hex]].
              ** split; [by left | by exists c].
              ** split; [by right | done].
           ++ intros [[->|Hd'] Hex]; [by left | by right].
        -- rewrite bind_cons, fmap_app, fold_left_app. simpl.
           by rewrite at_root_below.
      * intros d' c' s s' Hd'. apply Hself. by right.
      * intros d' Hd'. apply Hchild. by right.
Qed.

Lemma visited_nonempty rcs top cs x : visited spec N E rcs top cs x → cs ≠ [].
Proof. intros (ds & f & dir & -> & _). by destruct ds. Qed.

(** Files of the directory itself. *)
Lemma visited_here rcs top es f x :
  entries_of top = Some es →
  NoDup es.*1 →
  visited spec N E rcs top [f] x
  ↔ f ∈ filter (kept spec N E (rel_of rcs)) (walk_files es)
    ∧ read_text (child top f) = x.
Proof.
  intros Hes Hnd. rewrite list_elem_of_filter, elem_of_walk_files.
  unfold kept. rewrite <- rel_of_snoc. split.
  - intros (ds & f' & dir & Heq & Hd & Hc & Hs).
    destruct ds as [|d [|? ?]]; simplify_eq/=.
    rewrite Hc. split; [|done]. split; [done |].
    exists (File x). split; [|done]. apply lookup_entry_Some.
    by rewrite <- (child_entries _ _ _ Hes).
  - intros [[Hs (y & Hin & Hy)] Hx]. exists [], f, top.
    split; [done |]. split; [done |]. split; [|done].
    rewrite (child_entries _ _ _ Hes) in Hx |- *.
    rewrite (lookup_entry_NoDup _ _ _ Hnd Hin) in Hx |- *.
    destruct y; simplify_eq/=. done.
Qed.

(** Files further down, through the directory [d]. *)
Lemma visited_below rcs top d ds x c :
  child top d = Some c → is_dir c = true → is_link c = false →
  d ∉ N → ds ≠ [] →
  visited spec N E rcs top (d :: ds) x
  ↔ visited spec N E (rcs ++ [d]) c ds x.
Proof.
  intros Hc Hd Hl HN Hne. unfold visited. split.
  - intros (ds' & f & dir & Heq & Hdesc & Hf & Hs).
    destruct ds' as [|d' ds']; simplify_eq/=.
    rewrite Hc in Hdesc. destruct c as [|l|l]; [done | |done].
    rewrite bool_decide_eq_false_2 in Hdesc by done.
    exists ds', f, dir. by rewrite <- app_assoc.
  - intros (ds' & f & dir & -> & Hdesc & Hf & Hs).
    exists (d :: ds'), f, dir. split; [done |]. split; [|split; [done |]].
    + simpl. rewrite Hc. destruct c as [|l|l]; [done | |done].
      by rewrite bool_decide_eq_false_2.
    + by rewrite <- app_assoc in Hs.
Qed.

Lemma NoDup_below (dvs : list (string * list (list string * (string + string)))) :
  NoDup dvs.*1 → Forall (λ dv, NoDup dv.2.*1) dvs →
  NoDup (dvs ≫= λ dv, below dv.1 <$> dv.2).*1.
Proof.
  induction dvs as [|[d vs] dvs IH]; intros Hnd Hall; [constructor |].
  rewrite fmap_cons in Hnd.
  apply NoDup_cons in Hnd as [Hd Hnd]. apply Forall_cons in Hall as [Hvs Hall].
  rewrite bind_cons, fmap_app. cbn [fst snd] in *.
  apply NoDup_app. split; [|split].
  - assert ((below d <$> vs).*1 = cons d <$> vs.*1) as ->
      by (by rewrite <- !list_fmap_compose).
    apply NoDup_fmap_2_strong; [|done]. by intros ?? _ _ [=].
  - intros cs Hcs Hcs'.
    apply list_elem_of_fmap in Hcs as ([cs1 x1] & -> & Hin1).
    apply list_elem_of_fmap in Hin1 as ([cs2 x2] & [= -> ->] & _).
    apply list_elem_of_fmap in Hcs' as ([cs3 x3] & Heq & Hin3).
    apply list_elem_of_bind in Hin3 as ([d' vs'] & Hin3 & Hdv).
    apply list_elem_of_fmap in Hin3 as ([cs4 x4] & [= -> ->] & _).
    simpl in Heq. injection Heq as -> _. apply Hd.
    apply list_elem_of_fmap. by exists (d', vs').
  - by apply IH.
Qed.

Lemma emit_walk_visits fuel :
  ∀ top rcs st st',
    well_formed top = true →
    emit_walk spec N E fuel top (rel_of rcs) st = Some st' →
    ∃ vs : list (list string * (string + string)),
      st' = fold_left record_visit (at_root rcs <$> vs) st
      ∧ NoDup vs.*1
      ∧ ∀ cs x, (cs, x) ∈ vs ↔ visited spec N E rcs top cs x.
Proof.
  induction fuel as [|fuel IH]; intros top rcs st st' Hwf Hrun; [done |].
  simpl in Hrun. destruct (entries_of top) as [es|] eqn:Hes.
  2:{ simplify_eq. exists []. split; [done |]. split; [constructor |].
      intros cs x. split; [by intros ?%elem_of_nil |].
      intros (ds & f & dir & -> & Hd & Hc & _).
      destruct ds as [|d ds]; simpl in Hd.
      - simplify_eq. unfold child in Hc. by rewrite Hes in Hc.
      - unfold child in Hd. by rewrite Hes in Hd. }
  destruct (well_formed_entries top es Hes Hwf) as (Hnd & Hvalid & Hwfc).
  rewrite emit_files_visits in Hrun.
  apply (walk_loop_visits _ _ _
           (λ d vs, ∃ c, child top d = Some c
                         ∧ is_dir c = true ∧ is_link c = false
                         ∧ (d ∉ N) ∧ NoDup (vs.*1)
                         ∧ ∀ cs x, (cs, x) ∈ vs
                                   ↔ visited spec N E (rcs ++ [d]) c cs x))
    in Hrun.
  - destruct Hrun as (dvs & Hsub & Hdirs & Hall & ->).
    exists (((λ f, ([f], read_text (child top f)))
               <$> filter (kept spec N E (rel_of rcs)) (walk_files es))
            ++ (dvs ≫= λ dv, below dv.1 <$> dv.2)).
    split; [|split].
    + rewrite fmap_app, fold_left_app. do 2 f_equal.
      rewrite <- list_fmap_compose. apply list_fmap_ext.
      intros _ f _. simpl. by rewrite rel_of_snoc.
    + rewrite fmap_app. apply NoDup_app. split; [|split].
      * rewrite <- list_fmap_compose.
        apply NoDup_fmap_2_strong; [by intros ?? _ _ [=] |].
        by apply NoDup_filter, NoDup_walk_files.
      * intros cs Hcs Hcs'.
        apply list_elem_of_fmap in Hcs as ([cs1 x1] & -> & Hin1).
        apply list_elem_of_fmap in Hin1 as (f & [= -> ->] & _).
        apply list_elem_of_fmap in Hcs' as ([cs3 x3] & Heq & Hin3).
        apply list_elem_of_bind in Hin3 as ([d' vs'] & Hin3 & Hdv).
        apply list_elem_of_fmap in Hin3 as ([cs4 x4] & [= -> ->] & Hin4).
        simpl in Heq. injection Heq as -> <-.
        eapply Forall_forall in Hall as (c & _ & _ & _ & _ & _ & Hmem);
          [|done].
        apply Hmem in Hin4. by apply visited_nonempty in Hin4.
      * apply NoDup_below.
        -- eapply sublist_NoDup; [|exact Hsub].
           by apply NoDup_filter, NoDup_walk_dirs.
        -- eapply Forall_impl; [done |].
           by intros dv (c & _ & _ & _ & _ & ? & _).
    + intros cs x. rewrite elem_of_app. split.
      * intros [Hin|Hin].
        -- apply list_elem_of_fmap in Hin as (f & [= -> ->] & Hf).
           by apply (visited_here rcs top es).
        -- apply list_elem_of_bind in Hin as ([d vs] & Hin & Hdv).
           apply list_elem_of_fmap in Hin as ([cs' x'] & [= -> ->] & Hin).
           eapply Forall_forall in Hall as (c & Hc & Hd & Hl & HN & _ & Hmem);
             [|done].
           simpl in *. apply Hmem in Hin.
           apply (visited_below rcs top d cs' x' c); try done.
           by eapply visited_nonempty.
      * intros Hv. pose proof Hv as (ds & f & dir & -> & Hdesc & Hf & Hs).
        destruct ds as [|d ds].
        -- left. apply (visited_here rcs top es f x Hes Hnd) in Hv as [Hin <-].
           apply list_elem_of_fmap. by exists f.
        -- right. simpl in Hdesc.
           destruct (child top d) as [[|l|l]|] eqn:Hc; try done.
           case_bool_decide as HN; [done |].
           assert (d ∈ dvs.*1) as Hd.
           { apply Hdirs. split; [|by exists (Dir l)].
             apply list_elem_of_filter. split; [done |].
             apply elem_of_walk_dirs. exists (Dir l). split; [|done].
             apply lookup_entry_Some.
             by rewrite <- (child_entries _ _ _ Hes). }
           apply list_elem_of_fmap in Hd as ([d' vs] & -> & Hdv).
           cbn [fst snd] in *.
           eapply Forall_forall in Hall as (c & Hc' & Hd & _ & _ & _ & Hmem);
             [|exact Hdv].
           cbn [fst snd] in *. rewrite Hc in Hc'. simplify_eq.
           apply list_elem_of_bind. exists (d', vs). split; [|done].
           apply list_elem_of_fmap. exists (ds ++ [f], x). split; [done |].
           apply Hmem.
           apply (visited_below rcs top d' (ds ++ [f]) x (Dir l)); try done.
           by destruct ds.
  - intros d c s s' Hd Hc Hl Hs.
    apply list_elem_of_filter in Hd as [HdN Hd].
    apply elem_of_walk_dirs in Hd as (y & Hin & Hy).
    assert (c = y) as ->.
    { rewrite (child_entries _ _ _ Hes) in Hc.
      rewrite (lookup_entry_NoDup _ _ _ Hnd Hin) in Hc. congruence. }
    destruct (IH y (rcs ++ [d]) s s') as (vs & -> & Hnd' & Hmem);
      [by eapply Hwfc | done |].
    exists vs. split; [|done]. by exists y.
  - intros d Hd.
    apply list_elem_of_filter in Hd as [_ Hd].
    apply elem_of_walk_dirs in Hd as (y & Hin & _).
    exists y. rewrite (child_entries _ _ _ Hes). by apply lookup_entry_NoDup.
Qed.

End walk_facts.

(** ** Relative paths spell their names unambiguously *)
Section rel_of_facts.

Lemma valid_name_spec n : valid_name n = true ↔ n ≠ "" ∧ has_sep n = false.
Proof.
  unfold valid_name.
  rewrite andb_true_iff, !negb_true_iff, bool_decide_eq_false. done.
Qed.

Lemma app_inv_tail_s (a b c : string) : a +:+ c = b +:+ c → a = b.
Proof.
  revert b. induction a as [|x a IH]; intros [|y b] Heq; simpl in Heq.
  - done.
  - apply (f_equal String.length) in Heq. simpl in Heq.
    rewrite app_length_s in Heq. lia.
  - apply (f_equal String.length) in Heq. simpl in Heq.
    rewrite app_length_s in Heq. lia.
  - injection Heq as -> Heq. f_equal. by apply IH.
Qed.

Lemma basename_trailing_sep q : basename (q +:+ "/") = "".
Proof.
  induction q as [|c q IH]; simpl; [done |].
  rewrite has_sep_app. simpl. by rewrite orb_true_r.
Qed.

Lemma rel_join_no_trailing_sep r n :
  valid_name n = true → endswith (rel_join r n) "/" = false.
Proof.
  intros [Hne Hsep]%valid_name_spec.
  destruct (endswith (rel_join r n) "/") eqn:He; [|done].
  apply endswith_spec in He as [q Hq].
  pose proof (basename_rel_join r n Hsep) as Hb. rewrite Hq in Hb.
  rewrite basename_trailing_sep in Hb. by subst n.
Qed.

Lemma rel_of_no_trailing_sep cs :
  Forall (λ n, valid_name n = true) cs → endswith (rel_of cs) "/" = false.
Proof.
  destruct cs as [|c cs _] using rev_ind; [done |].
  intros [_ Hc]%Forall_app. rewrite Forall_singleton in Hc.
  rewrite rel_of_snoc. by apply rel_join_no_trailing_sep.
Qed.

(** How the script extends the relative path of a directory. *)
Lemma rel_join_valid r n :
  valid_name n = true → endswith r "/" = false →
  rel_join r n = if bool_decide (r = "") then n else r +:+ "/" +:+ n.
Proof.
  intros [Hne Hsep]%valid_name_spec Hr. unfold rel_join, join.
  case_bool_decide; [done |].
  by rewrite (no_sep_not_starts _ Hsep), Hr.
Qed.

Lemma rel_join_nonempty r n : valid_name n = true → rel_join r n ≠ "".
Proof.
  intros Hn Heq. pose proof (basename_rel_join r n) as Hb.
  apply valid_name_spec in Hn as [Hne Hsep]. rewrite Heq in Hb.
  specialize (Hb Hsep). by subst n.
Qed.

Lemma rel_join_inj r r' n n' :
  valid_name n = true → valid_name n' = true →
  endswith r "/" = false → endswith r' "/" = false →
  rel_join r n = rel_join r' n' → r = r' ∧ n = n'.
Proof.
  intros Hn Hn' Hr Hr' Heq.
  assert (n = n') as <-.
  { apply valid_name_spec in Hn as [_ Hn], Hn' as [_ Hn'].
    by rewrite <- (basename_rel_join r n), <- (basename_rel_join r' n'), Heq. }
  split; [|done].
  rewrite !rel_join_valid in Heq by done.
  repeat case_bool_decide; subst; try done.
  - apply (f_equal String.length) in Heq.
    rewrite !app_length_s in Heq. simpl in Heq. lia.
  - apply (f_equal String.length) in Heq.
    rewrite !app_length_s in Heq. simpl in Heq. lia.
  - by apply (app_inv_tail_s r r' ("/" +:+ n)).
Qed.

Lemma rel_of_inj cs cs' :
  Forall (λ n, valid_name n = true) cs →
  Forall (λ n, valid_name n = true) cs' →
  rel_of cs = rel_of cs' → cs = cs'.
Proof.
  revert cs'. induction cs as [|c cs IH] using rev_ind; intros cs' Hv Hv' Heq.
  - destruct cs' as [|c' cs' _] using rev_ind; [done |].
    apply Forall_app in Hv' as [_ Hc']. rewrite Forall_singleton in Hc'.
    rewrite rel_of_snoc in Heq. symmetry in Heq.
    by apply rel_join_nonempty in Heq.
  - apply Forall_app in Hv as [Hv Hc]. rewrite Forall_singleton in Hc.
    destruct cs' as [|c' cs' _] using rev_ind.
    + rewrite rel_of_snoc in Heq. by apply rel_join_nonempty in Heq.
    + apply Forall_app in Hv' as [Hv' Hc']. rewrite Forall_singleton in Hc'.
      rewrite !rel_of_snoc in Heq.
      apply rel_join_inj in Heq as [Hr ->];
        [|done|done|by apply rel_of_no_trailing_sep..].
      f_equal. by apply IH.
Qed.

End rel_of_facts.

(** ** Paths of the files the walk meets *)
Section reach_facts.

Context (spec : option pathspec.PathSpec) (N E : gset string).

Lemma child_well_formed dir f x :
  well_formed dir = true → child dir f = Some x →
  valid_name f = true ∧ well_formed x = true.
Proof.
  intros Hwf Hc. destruct (entries_of dir) as [es|] eqn:Hes.
  2:{ unfold child in Hc. by rewrite Hes in Hc. }
  destruct (well_formed_entries dir es Hes Hwf) as (_ & Hvalid & Hwfc).
  rewrite (child_entries _ _ _ Hes) in Hc. split.
  - by eapply Hvalid, lookup_entry_name.
  - by eapply Hwfc, lookup_entry_Some.
Qed.

Lemma descend_well_formed ds :
  ∀ top dir,
    well_formed top = true → descend N top ds = Some dir →
    Forall (λ n, valid_name n = true) ds ∧ well_formed dir = true.
Proof.
  induction ds as [|d ds IH]; intros top dir Hwf Hd; simpl in Hd.
  - by simplify_eq.
  - destruct (child top d) as [[|l|l]|] eqn:Hc; try done.
    case_bool_decide; [done |].
    destruct (child_well_formed _ _ _ Hwf Hc) as [Hv Hwf'].
    destruct (IH _ _ Hwf' Hd) as [Hvs Hwfd]. split; [by constructor | done].
Qed.

Lemma descend_resolve ds :
  ∀ top dir, descend N top ds = Some dir → resolve top ds = Some dir.
Proof.
  induction ds as [|d ds IH]; intros top dir Hd; simpl in *; [done |].
  destruct (child top d) as [[|l|l]|] eqn:Hc; try done.
  case_bool_decide; [done |]. simpl. by apply IH.
Qed.

Lemma resolve_snoc top ds f :
  resolve top (ds ++ [f]) = (dir ← resolve top ds; child dir f).
Proof.
  revert top. induction ds as [|d ds IH]; intros top; simpl.
  - by destruct (child top f).
  - destruct (child top d); simpl; [apply IH | done].
Qed.

(** A file met by the walk exists under the target directory at the
    path spelled by its names, and these names are valid. *)
Lemma visited_exists top cs x :
  well_formed top = true → visited spec N E [] top cs x →
  Forall (λ n, valid_name n = true) cs
  ∧ resolve top cs = Some (File x)
  ∧ should_ignore (rel_of cs) spec N E = false.
Proof.
  intros Hwf (ds & f & dir & -> & Hd & Hc & Hs).
  destruct (descend_well_formed _ _ _ Hwf Hd) as [Hvs Hwfd].
  destruct (child_well_formed _ _ _ Hwfd Hc) as [Hv _].
  split; [|split; [|done]].
  - apply Forall_app. split; [done | by apply Forall_singleton].
  - rewrite resolve_snoc, (descend_resolve _ _ _ Hd). done.
Qed.

(** The whole run: the header and the tree, then one read attempt for
    each file the walk meets and does not ignore, none of them twice. *)
Lemma run_visits fuel args target st :
  well_formed target = true →
  run fuel args target spec N E = Some st →
  ∃ st0 (vs : list (string * (string + string))),
    preamble fuel args target spec N E = Some st0
    ∧ st = fold_left record_visit vs st0
    ∧ NoDup vs.*1
    ∧ ∀ p x, (p, x) ∈ vs
             ↔ ∃ cs, p = rel_of cs ∧ visited spec N E [] target cs x.
Proof.
  intros Hwf Hrun. unfold run in Hrun.
  destruct (preamble fuel args target spec N E) as [st0|]; [|done].
  simpl in Hrun.
  apply (emit_walk_visits spec N E fuel target [] st0 st Hwf) in Hrun
    as (vs & -> & Hnd & Hmem).
  exists st0, ((λ v : list string * (string + string), (rel_of v.1, v.2)) <$> vs).
  split; [done |]. split; [done |]. split.
  - assert (((λ v : list string * (string + string), (rel_of v.1, v.2))
               <$> vs).*1 = rel_of <$> vs.*1) as ->
      by (by rewrite <- !list_fmap_compose).
    apply NoDup_fmap_2_strong; [|done].
    intros cs cs' Hcs Hcs' Heq.
    apply list_elem_of_fmap in Hcs as ([cs1 x1] & -> & Hin1).
    apply list_elem_of_fmap in Hcs' as ([cs2 x2] & -> & Hin2).
    apply Hmem, (visited_exists _ _ _ Hwf) in Hin1 as [Hv1 _].
    apply Hmem, (visited_exists _ _ _ Hwf) in Hin2 as [Hv2 _].
    by apply rel_of_inj.
  - intros p x. rewrite list_elem_of_fmap. split.
    + intros ([cs x'] & [= -> ->] & Hin). exists cs. split; [done |].
      by apply Hmem.
    + intros (cs & -> & Hv). exists (cs, x). split; [done |]. by apply Hmem.
Qed.

End reach_facts.

(** ** The finished run *)
Section main_facts.

Lemma main_Finished_inv from_lines fuel args target st :
  main from_lines fuel args target = Some (Finished st) →
  ∃ spec,
    gitignore_spec from_lines target = inl spec
    ∧ run fuel args target spec (name_set args target)
        (list_to_set (ignore_extensions args)) = Some st.
Proof.
  unfold main. destruct (negb (is_dir target)); [done |].
  destruct (gitignore_spec from_lines target) as [spec|e]; [|done].
  destruct (run _ _ _ _ _ _) as [st'|] eqn:Hr; simpl; [|done].
  intros [= ->]. by exists spec.
Qed.

Lemma main_run from_lines fuel args target spec st :
  is_dir target = true →
  gitignore_spec from_lines target = inl spec →
  run fuel args target spec (name_set args target)
    (list_to_set (ignore_extensions args)) = Some st →
  main from_lines fuel args target = Some (Finished st).
Proof. intros Hd Hg Hr. unfold main. by rewrite Hd, Hg, Hr. Qed.

Lemma write_lines_stdout (lines : list string) st :
  stdout (fold_left (λ st line, write (line +:+ nl) st) lines st) = stdout st.
Proof. revert st. induction lines as [|l ls IH]; intros st; simpl; [done | by rewrite IH]. Qed.

(** The header and the tree go to the output file only. *)
Lemma preamble_stdout fuel args target spec N E st0 :
  preamble fuel args target spec N E = Some st0 → stdout st0 = [].
Proof.
  unfold preamble. destruct (negb (no_tree args)); [|by intros [= <-]].
  destruct (generate_tree _ _ _ _ _ _ _) as [ls|]; [|done].
  intros [= <-]. unfold write_tree. simpl. by rewrite write_lines_stdout.
Qed.

End main_facts.

(** C5: after a run that finishes, the output file holds, after the
    header and the tree, one section for each path of a file that the
    walk meets, that is not ignored and that could be read, and nothing
    else: no relative path heads two sections (a file with several names
    has one section under each), and every section's path leads to a file
    under the target directory that the ignore predicate lets through. *)
Theorem one_section_per_walked_file :
  ∀ (from_lines : string → pathspec.PathSpec + string) (fuel : nat) (args : Args)
    (target : node) (st : state),
    well_formed target = true →
    main from_lines fuel args target = Some (Finished st) →
    ∃ (spec : option pathspec.PathSpec) (st0 : state)
      (secs : list (string * string)),
      gitignore_spec from_lines target = inl spec
      ∧ preamble fuel args target spec (name_set args target)
          (list_to_set (ignore_extensions args)) = Some st0
      ∧ outf st = outf st0 ++ concat (map (λ s, section_writes s.1 s.2) secs)
      ∧ NoDup secs.*1
      ∧ (∀ p c,
           (p, c) ∈ secs
           ↔ ∃ cs, p = rel_of cs
                   ∧ visited spec (name_set args target)
                       (list_to_set (ignore_extensions args)) [] target cs
                       (inl c))
      ∧ (∀ p c,
           (p, c) ∈ secs →
           ∃ cs, p = rel_of cs
                 ∧ resolve target cs = Some (File (inl c))
                 ∧ should_ignore p spec (name_set args target)
                     (list_to_set (ignore_extensions args)) = false).
Proof.
  intros from_lines fuel args target st Hwf Hmain.
  apply main_Finished_inv in Hmain as (spec & Hspec & Hrun).
  apply run_visits in Hrun as (st0 & vs & Hpre & -> & Hnd & Hmem); [|done].
  exists spec, st0, (sections_of vs).
  split; [done |]. split; [done |]. split; [apply record_visits_outf |].
  split; [|split].
  - eapply sublist_NoDup; [exact Hnd | apply sections_of_sublist].
  - intros p c. by rewrite elem_of_sections_of, Hmem.
  - intros p c Hin. apply elem_of_sections_of, Hmem in Hin as (cs & -> & Hv).
    apply visited_exists in Hv as (_ & Hres & Hs); [|done].
    by exists cs.
Qed.

Lemma one_section_per_walked_file_witness :
  ∃ (st0 : state) (secs : list (string * string)),
    [description "p" +:+ nl +:+ nl]
    ++ section_writes "a.txt" "hello" ++ section_writes "src/m.py" "pass"
    = outf st0 ++ concat (map (λ s, section_writes s.1 s.2) secs)
    ∧ NoDup secs.*1.
Proof.
  destruct (one_section_per_walked_file
              (λ _, inl {| pathspec.patterns := [] |}) 3
              {| target_dir_name := "p"; no_tree := true;
                 ignore_files := []; ignore_extensions := [ ".log" ] |}
              (Dir (Some [("a.txt", File (inl "hello"));
                          ("b.log", File (inl "noise"));
                          ("src", Dir (Some [("m.py", File (inl "pass"))]))]))
              {| outf := [description "p" +:+ nl +:+ nl]
                         ++ section_writes "a.txt" "hello"
                         ++ section_writes "src/m.py" "pass";
                 stdout := [] |})
    as (spec & st0 & secs & _ & _ & Hout & Hnd & _).
  - vm_compute. reflexivity.
  - vm_compute. reflexivity.
  - exists st0, secs. split; [exact Hout | exact Hnd].
Defined.

(** C5, as the claim is worded: a file is not kept to one section when
    it has two names.  Here [a.txt] and [b.txt] are two names of one file,
    number 7; the run finishes and the output file holds two sections for
    it, one under each name. *)
Lemma hard_link_has_two_sections :
  ∃ (file_of : list string → nat) (target : node) (st : state),
    well_formed target = true
    ∧ numbering_sound file_of target
    ∧ main (λ _, inl {| pathspec.patterns := [] |}) 2
        {| target_dir_name := "p"; no_tree := true;
           ignore_files := []; ignore_extensions := [] |} target
      = Some (Finished st)
    ∧ outf st
      = [description "p" +:+ nl +:+ nl]
        ++ concat (map (λ cs, section_writes (rel_of cs) "hello")
                     [["a.txt"]; ["b.txt"]])
    ∧ resolve target ["a.txt"] = Some (File (inl "hello"))
    ∧ resolve target ["b.txt"] = Some (File (inl "hello"))
    ∧ ¬ no_file_twice file_of [["a.txt"]; ["b.txt"]].
Proof.
  exists (λ cs, if bool_decide (cs = ["a.txt"] ∨ cs = ["b.txt"]) then 7 else 0),
    (Dir (Some [("a.txt", File (inl "hello")); ("b.txt", File (inl "hello"))])).
  eexists. split; [by vm_compute |]. split; [|split; [by vm_compute |]].
  - assert (Hres : ∀ cs x,
      resolve (Dir (Some [("a.txt", File (inl "hello"));
                          ("b.txt", File (inl "hello"))])) cs = Some (File x) →
      x = inl "hello").
    { intros [|d [|d' cs]] x; simpl; [done | |].
      - unfold child. simpl. repeat case_bool_decide; simpl; congruence.
      - unfold child. simpl. repeat case_bool_decide; simpl; done. }
    intros cs cs' x x' Hx Hx' _.
    apply Hres in Hx, Hx'. congruence.
  - split; [by vm_compute |]. split; [done |]. split; [done |].
    unfold no_file_twice. intros Hnd.
    apply NoDup_cons in Hnd as [Hnd _]. apply Hnd.
    rewrite !bool_decide_eq_true_2 by auto. by left.
Qed.

(** C4: a file that cannot be read does not stop the run: the run
    finishes, the output file holds no section under that file's path
    while every readable file the walk meets still has its section, and
    standard output, not the output file, receives a line naming the
    file's relative path and the reason. *)
Theorem unreadable_file_skipped_and_reported :
  ∀ (from_lines : string → pathspec.PathSpec + string) (fuel : nat) (args : Args)
    (target : node) (spec : option pathspec.PathSpec)
    (ds : list string) (f : string) (dir : node) (reason : string),
    well_formed target = true →
    is_dir target = true →
    gitignore_spec from_lines target = inl spec →
    height target < fuel →
    descend (name_set args target) target ds = Some dir →
    child dir f = Some (File (inr reason)) →
    should_ignore (rel_of (ds ++ [f])) spec (name_set args target)
      (list_to_set (ignore_extensions args)) = false →
    ∃ (st st0 : state) (secs : list (string * string)),
      main from_lines fuel args target = Some (Finished st)
      ∧ preamble fuel args target spec (name_set args target)
          (list_to_set (ignore_extensions args)) = Some st0
      ∧ outf st = outf st0 ++ concat (map (λ s, section_writes s.1 s.2) secs)
      ∧ (rel_of (ds ++ [f]) ∉ secs.*1)
      ∧ (∀ ds' f' dir' c,
           descend (name_set args target) target ds' = Some dir' →
           child dir' f' = Some (File (inl c)) →
           should_ignore (rel_of (ds' ++ [f'])) spec (name_set args target)
             (list_to_set (ignore_extensions args)) = false →
           (rel_of (ds' ++ [f']), c) ∈ secs)
      ∧ diagnostic (rel_of (ds ++ [f])) reason ∈ stdout st
      ∧ (∀ st1,
           emit_file spec (name_set args target)
             (list_to_set (ignore_extensions args)) dir (rel_of ds) st1 f
           = print (diagnostic (rel_of (ds ++ [f])) reason) st1).
Proof.
  intros from_lines fuel args target spec ds f dir reason
    Hwf Hdir Hspec Hh Hdesc Hchild Hkeep.
  set (N := name_set args target) in *.
  set (E := list_to_set (ignore_extensions args) : gset string) in *.
  destruct (run_total spec N E fuel args target Hh) as [st Hrun].
  pose proof (main_run from_lines fuel args target spec st Hdir Hspec Hrun)
    as Hmain.
  apply run_visits in Hrun as (st0 & vs & Hpre & -> & Hnd & Hmem); [|done].
  assert (Hbad : (rel_of (ds ++ [f]), inr reason) ∈ vs).
  { apply Hmem. exists (ds ++ [f]). split; [done |]. by exists ds, f, dir. }
  exists (fold_left record_visit vs st0), st0, (sections_of vs).
  split; [done |]. split; [done |]. split; [apply record_visits_outf |].
  split; [|split; [|split]].
  - intros Hin. apply list_elem_of_fmap in Hin as ([p c] & Hp & Hin).
    simpl in Hp. subst p. apply elem_of_sections_of in Hin.
    by pose proof (NoDup_fst_unique _ _ _ _ Hnd Hbad Hin).
  - intros ds' f' dir' c Hd' Hc' Hk'. apply elem_of_sections_of, Hmem.
    exists (ds' ++ [f']). split; [done |]. by exists ds', f', dir'.
  - rewrite record_visits_stdout, (preamble_stdout _ _ _ _ _ _ _ Hpre). simpl.
    apply list_elem_of_fmap. exists (rel_of (ds ++ [f]), reason).
    split; [done |]. by apply elem_of_failures_of.
  - intros st1. rewrite emit_file_record, <- rel_of_snoc, Hkeep, Hchild. done.
Qed.

Lemma unreadable_file_skipped_and_reported_witness :
  ∃ st,
    main (λ _, inl {| pathspec.patterns := [] |}) 3
      {| target_dir_name := "p"; no_tree := true;
         ignore_files := []; ignore_extensions := [] |}
      (Dir (Some [("a.txt", File (inl "hello"));
                  ("bad.bin", File (inr "invalid start byte"));
                  ("z", Dir (Some [("z.txt", File (inl "zz"))]))]))
    = Some (Finished st)
    ∧ diagnostic "bad.bin" "invalid start byte" ∈ stdout st.
Proof.
  destruct (unreadable_file_skipped_and_reported
              (λ _, inl {| pathspec.patterns := [] |}) 3
              {| target_dir_name := "p"; no_tree := true;
                 ignore_files := []; ignore_extensions := [] |}
              (Dir (Some [("a.txt", File (inl "hello"));
                          ("bad.bin", File (inr "invalid start byte"));
                          ("z", Dir (Some [("z.txt", File (inl "zz"))]))]))
              None [] "bad.bin"
              (Dir (Some [("a.txt", File (inl "hello"));
                          ("bad.bin", File (inr "invalid start byte"));
                          ("z", Dir (Some [("z.txt", File (inl "zz"))]))]))
              "invalid start byte")
    as (st & st0 & secs & Hmain & _ & _ & _ & _ & Hdiag & _).
  - vm_compute. reflexivity.
  - reflexivity.
  - vm_compute. reflexivity.
  - vm_compute. lia.
  - reflexivity.
  - vm_compute. reflexivity.
  - vm_compute. reflexivity.
  - exists st. split; [exact Hmain | exact Hdiag].
Defined.

(** ** A directory with one of its entries taken away *)
Section without_facts.

Context (spec : option pathspec.PathSpec) (N E : gset string).

Lemma sorted_filter (P : string → Prop) `{∀ x, Decision (P x)} names :
  sorted (filter P names) = filter P (sorted names).
Proof.
  apply (StronglySorted_unique String.le).
  - apply sorted_StronglySorted.
  - apply StronglySorted_filter_s, sorted_StronglySorted.
  - by rewrite !sorted_Permutation.
Qed.

Lemma fst_filter (Q : string → Prop) `{∀ n, Decision (Q n)}
    (es : list (string * node)) :
  (filter (λ e, Q e.1) es).*1 = filter Q es.*1.
Proof.
  induction es as [|[n x] es IH]; [done |].
  rewrite fmap_cons, !filter_cons. simpl.
  case_decide; [by rewrite fmap_cons, IH | done].
Qed.

Lemma without_entry_names name (es : list (string * node)) :
  (without_entry name es).*1 = filter (λ n, n ≠ name) es.*1.
Proof.
  unfold without_entry.
  pose proof (fst_filter (λ n, n ≠ name) es) as Hf. exact Hf.
Qed.

Lemma lookup_entry_without name e (es : list (string * node)) :
  e ≠ name → lookup_entry e (without_entry name es) = lookup_entry e es.
Proof.
  intros Hne. unfold without_entry.
  induction es as [|[n x] es IH]; [done |].
  rewrite filter_cons. simpl. case_decide as Hn; simpl.
  - by rewrite IH.
  - rewrite IH. subst n. by rewrite bool_decide_eq_false_2.
Qed.

Lemma filter_without name (P : string * node → Prop)
    `{∀ e, Decision (P e)} (es : list (string * node)) :
  (filter P (without_entry name es)).*1
  = filter (λ n, n ≠ name) (filter P es).*1.
Proof.
  unfold without_entry.
  pose proof (fst_filter (λ n, n ≠ name) (filter P es)) as Hf.
  rewrite <- Hf, !list_filter_filter.
  f_equal. apply list_filter_iff. tauto.
Qed.

Lemma walk_files_without name (es : list (string * node)) :
  walk_files (without_entry name es) = filter (λ n, n ≠ name) (walk_files es).
Proof. apply filter_without. Qed.

Lemma walk_dirs_without name (es : list (string * node)) :
  walk_dirs (without_entry name es) = filter (λ n, n ≠ name) (walk_dirs es).
Proof. apply filter_without. Qed.

Lemma render_loop_ext self d1 d2 current_rel prefix count :
  ∀ todo index tree_lines,
    (∀ e, e ∈ todo → child d1 e = child d2 e) →
    render_loop self d1 current_rel prefix count index todo tree_lines
    = render_loop self d2 current_rel prefix count index todo tree_lines.
Proof.
  induction todo as [|entry todo IH]; intros index tree_lines Hc; [done |].
  simpl. rewrite (Hc entry) by left.
  assert (Hrest : ∀ e, e ∈ todo → child d1 e = child d2 e)
    by (intros e He; apply Hc; by right).
  destruct (subdir (child d2 entry)) as [c|]; [|by apply IH].
  destruct (self _ _ _); simpl; [by apply IH | done].
Qed.

Lemma walk_loop_ext self d1 d2 root_rel :
  ∀ dirs st,
    (∀ d, d ∈ dirs → child d1 d = child d2 d) →
    walk_loop self d1 root_rel dirs st = walk_loop self d2 root_rel dirs st.
Proof.
  induction dirs as [|d dirs IH]; intros st Hc; [done |].
  simpl. rewrite (Hc d) by left.
  assert (Hrest : ∀ e, e ∈ dirs → child d1 e = child d2 e)
    by (intros e He; apply Hc; by right).
  destruct (child d2 d) as [c|]; [|by apply IH].
  destruct (is_link c); [by apply IH |].
  destruct (self _ _ _); simpl; [by apply IH | done].
Qed.

(** An ignored entry can be taken out of the directory without
    changing the tree rendered for it. *)
Lemma generate_tree_without fuel name es current_rel prefix :
  should_ignore (rel_join current_rel name) spec N E = true →
  generate_tree spec N E fuel (Dir (Some es)) current_rel prefix
  = generate_tree spec N E fuel (Dir (Some (without_entry name es)))
      current_rel prefix.
Proof.
  intros Hign. destruct fuel as [|fuel]; [done |]. simpl.
  unfold listdir. simpl.
  rewrite without_entry_names, sorted_filter, !filter_entries_filter.
  rewrite list_filter_filter.
  assert (Hsame :
    filter (λ x, kept spec N E current_rel x ∧ x ≠ name) (sorted es.*1)
    = filter (kept spec N E current_rel) (sorted es.*1)).
  { apply list_filter_iff. intros x. split; [by intros [? _] |].
    intros Hk. split; [done |]. intros ->. unfold kept in Hk. congruence. }
  rewrite Hsame. apply render_loop_ext.
  intros e [Hk _]%list_elem_of_filter. unfold child. simpl.
  symmetry. apply lookup_entry_without.
  intros ->. unfold kept in Hk. congruence.
Qed.

Lemma emit_files_without name es root_rel files st :
  should_ignore (rel_join root_rel name) spec N E = true →
  fold_left (emit_file spec N E (Dir (Some es)) root_rel) files st
  = fold_left
      (emit_file spec N E (Dir (Some (without_entry name es))) root_rel)
      (filter (λ n, n ≠ name) files) st.
Proof.
  intros Hign. revert st.
  induction files as [|f files IH]; intros st; [done |].
  rewrite filter_cons. simpl. case_decide as Hf.
  - simpl. rewrite IH. f_equal. unfold emit_file, child. simpl.
    by rewrite lookup_entry_without.
  - subst f. rewrite IH.
    unfold emit_file at 2. by rewrite Hign.
Qed.

(** A pruned name can be taken out of the directory without changing
    what the walk emits. *)
Lemma emit_walk_without fuel name es root_rel st :
  name ∈ N → has_sep name = false →
  emit_walk spec N E fuel (Dir (Some es)) root_rel st
  = emit_walk spec N E fuel (Dir (Some (without_entry name es))) root_rel st.
Proof.
  intros HN Hsep. destruct fuel as [|fuel]; [done |]. simpl.
  rewrite walk_files_without, walk_dirs_without, list_filter_filter.
  rewrite <- (emit_files_without name es).
  2:{ apply should_ignore_name. by rewrite basename_rel_join. }
  assert (Hsame :
    filter (λ x, (x ∉ N) ∧ x ≠ name) (walk_dirs es)
    = filter (λ x, x ∉ N) (walk_dirs es)).
  { apply list_filter_iff. intros x. split; [by intros [? _] |].
    intros Hx. split; [done |]. by intros ->. }
  rewrite Hsame. apply walk_loop_ext.
  intros d [Hd _]%list_elem_of_filter. unfold child. simpl.
  symmetry. apply lookup_entry_without. by intros ->.
Qed.

End without_facts.

(** C7: when the target directory holds a directory [.git], the name
    enters the name set although no ignore option names it, and then the
    tree listing, the sections and the whole finished run are those of the
    same target without its [.git] entry. *)
Theorem git_directory_excluded :
  ∀ (from_lines : string → pathspec.PathSpec + string) (fuel : nat) (args : Args)
    (es : list (string * node)) (g : option (list (string * node))),
    lookup_entry ".git" es = Some (Dir g) →
    ".git" ∈ name_set args (Dir (Some es))
    ∧ (∀ spec E,
         generate_tree spec (name_set args (Dir (Some es))) E fuel
           (Dir (Some es)) "" ""
         = generate_tree spec (name_set args (Dir (Some es))) E fuel
             (Dir (Some (without_entry ".git" es))) "" "")
    ∧ (∀ spec E st,
         emit_walk spec (name_set args (Dir (Some es))) E fuel
           (Dir (Some es)) "" st
         = emit_walk spec (name_set args (Dir (Some es))) E fuel
             (Dir (Some (without_entry ".git" es))) "" st)
    ∧ (∀ st,
         main from_lines fuel args (Dir (Some es)) = Some (Finished st) →
         ∃ spec,
           gitignore_spec from_lines (Dir (Some es)) = inl spec
           ∧ run fuel args (Dir (Some (without_entry ".git" es))) spec
               (name_set args (Dir (Some es)))
               (list_to_set (ignore_extensions args)) = Some st).
Proof.
  intros from_lines fuel args es g Hgit.
  assert (Hin : ".git" ∈ name_set args (Dir (Some es))).
  { unfold name_set, child. simpl. rewrite Hgit. simpl. set_solver. }
  assert (Htree : ∀ spec E,
    generate_tree spec (name_set args (Dir (Some es))) E fuel
      (Dir (Some es)) "" ""
    = generate_tree spec (name_set args (Dir (Some es))) E fuel
        (Dir (Some (without_entry ".git" es))) "" "").
  { intros spec E. apply generate_tree_without.
    apply should_ignore_name. by rewrite basename_rel_join. }
  assert (Hwalk : ∀ spec E st,
    emit_walk spec (name_set args (Dir (Some es))) E fuel (Dir (Some es)) "" st
    = emit_walk spec (name_set args (Dir (Some es))) E fuel
        (Dir (Some (without_entry ".git" es))) "" st).
  { intros spec E st. by apply emit_walk_without. }
  split; [done |]. split; [done |]. split; [done |].
  intros st Hmain.
  apply main_Finished_inv in Hmain as (spec & Hspec & Hrun).
  exists spec. split; [done |].
  unfold run, preamble in *. rewrite <- Htree.
  destruct (negb (no_tree args)); simpl in *.
  - destruct (generate_tree _ _ _ _ _ _ _); simpl in *;
      [by rewrite <- Hwalk | done].
  - by rewrite <- Hwalk.
Qed.

Lemma git_directory_excluded_witness :
  generate_tree None
    (name_set {| target_dir_name := "p"; no_tree := false;
                 ignore_files := []; ignore_extensions := [] |}
       (Dir (Some [(".git", Dir (Some [("HEAD", File (inl "ref"))]));
                   ("a.txt", File (inl "hello"))])))
    ∅ 3
    (Dir (Some [(".git", Dir (Some [("HEAD", File (inl "ref"))]));
                ("a.txt", File (inl "hello"))])) "" ""
  = Some ["└── a.txt"].
Proof.
  destruct (git_directory_excluded
              (λ _, inl {| pathspec.patterns := [] |}) 3
              {| target_dir_name := "p"; no_tree := false;
                 ignore_files := []; ignore_extensions := [] |}
              [(".git", Dir (Some [("HEAD", File (inl "ref"))]));
               ("a.txt", File (inl "hello"))]
              (Some [("HEAD", File (inl "ref"))]) eq_refl)
    as (_ & Htree & _).
  rewrite (Htree None ∅). vm_compute. reflexivity.
Defined.

(** C2, at a directory that is ignored through its extension: the tree
    listing leaves [out.log] and what it holds out, the walk goes into it
    all the same and the file below it gets a section. *)
Theorem walk_enters_ignored_directory :
  should_ignore "out.log" None ∅ {[ ".log" ]} = true
  ∧ generate_tree None ∅ {[ ".log" ]} 3
      (Dir (Some [("out.log", Dir (Some [("k.txt", File (inl "kk"))]));
                  ("a.txt", File (inl "hello"))])) "" ""
    = Some ["└── a.txt"]
  ∧ outf <$> emit_walk None ∅ {[ ".log" ]} 3
               (Dir (Some [("out.log", Dir (Some [("k.txt", File (inl "kk"))]));
                           ("a.txt", File (inl "hello"))])) ""
               {| outf := []; stdout := [] |}
    = Some (section_writes "a.txt" "hello"
            ++ section_writes "out.log/k.txt" "kk").
Proof. vm_compute. done. Qed.


(** ** Two runs, evaluated *)

(** A target holding [a.txt] and [b.log], run with [--no-tree] and
    [--ignore-extensions .log]: the header, then the one section of
    [a.txt]. *)
Example run_skips_ignored_extension :
  main (λ _, inl {| pathspec.patterns := [] |}) 2
    {| target_dir_name := "proj"; no_tree := true;
       ignore_files := []; ignore_extensions := [ ".log" ] |}
    (Dir (Some [("a.txt", File (inl "hello")); ("b.log", File (inl "noise"))]))
  = Some (Finished
            {| outf := [description "proj" +:+ nl +:+ nl]
                       ++ section_writes "a.txt" "hello";
               stdout := [] |}).
Proof. vm_compute. reflexivity. Qed.

(** The text of the output file of that run. *)
Example document_of_that_run :
  document {| outf := [description "proj" +:+ nl +:+ nl]
                      ++ section_writes "a.txt" "hello";
              stdout := [] |}
  = description "proj" +:+ nl +:+ nl +:+
    "===== a.txt =====" +:+ nl +:+
    "```" +:+ nl +:+ "hello" +:+ nl +:+ "```" +:+ nl +:+ nl.
Proof. vm_compute. reflexivity. Qed.

(** A target holding only the empty directory [sub]: one line, with the
    connector of a last child, and nothing below it. *)
Example tree_of_empty_subdirectory :
  generate_tree None ∅ ∅ 2 (Dir (Some [("sub", Dir (Some []))])) "" ""
  = Some ["└── sub"].
Proof. vm_compute. reflexivity. Qed.

(** A deeper tree, with its prefixes. *)
Example tree_with_prefixes :
  generate_tree None ∅ ∅ 3
    (Dir (Some [("src", Dir (Some [("b.py", File (inl ""));
                                    ("a.py", File (inl ""))]));
                ("docs", Dir (Some [("index.md", File (inl ""))]));
                ("README", File (inl ""))])) "" ""
  = Some ["├── README";
          "├── docs";
          "│   └── index.md";
          "└── src";
          "    ├── a.py";
          "    └── b.py"].
Proof. vm_compute. reflexivity. Qed.

(** * Further properties *)

(** ** How a run ends *)

(** X1: what stops [main], its arguments parsed, before the output file
    is opened, whatever the tree below the target holds: a target that is
    not a directory makes it exit with the message, and nothing else does;
    a [.gitignore] file that cannot be read makes it raise the error of
    the read; a [.gitignore] file one of whose lines is not a valid
    pattern makes it raise the error of the compilation. *)
Theorem main_outcome :
  ∀ (from_lines : string → pathspec.PathSpec + string) (fuel : nat)
    (args : Args) (target : node),
    (is_dir target = false →
     main from_lines fuel args target
     = Some (SysExit "目标目录不存在或不是一个目录。"))
    ∧ (∀ msg, main from_lines fuel args target = Some (SysExit msg) →
              is_dir target = false)
    ∧ (∀ e, is_dir target = true →
            child target ".gitignore" = Some (File (inr e)) →
            main from_lines fuel args target = Some (Raised e))
    ∧ (∀ text e, is_dir target = true →
                 child target ".gitignore" = Some (File (inl text)) →
                 from_lines text = inr e →
                 main from_lines fuel args target = Some (Raised e)).
Proof.
  intros from_lines fuel args target. unfold main, gitignore_spec.
  split; [|split; [|split]].
  - by intros ->.
  - intros msg. destruct (is_dir target); simpl; [|done].
    destruct (if isfile _ then _ else _) as [spec|e]; [|done].
    by destruct (run _ _ _ _ _ _).
  - intros e -> ->. done.
  - intros text e -> -> Hc. simpl. unfold load_gitignore_spec. simpl.
    by rewrite Hc.
Qed.

Lemma main_outcome_witness :
  main (λ text, if bool_decide (text = "!") then inr "invalid pattern"
                else inl {| pathspec.patterns := [] |}) 0
    {| target_dir_name := "p"; no_tree := true;
       ignore_files := []; ignore_extensions := [] |}
    (Dir (Some [(".gitignore", File (inl "!"));
                ("a.txt", File (inl "hello"))]))
  = Some (Raised "invalid pattern").
Proof.
  destruct (main_outcome
              (λ text, if bool_decide (text = "!") then inr "invalid pattern"
                       else inl {| pathspec.patterns := [] |}) 0
              {| target_dir_name := "p"; no_tree := true;
                 ignore_files := []; ignore_extensions := [] |}
              (Dir (Some [(".gitignore", File (inl "!"));
                          ("a.txt", File (inl "hello"))])))
    as (_ & _ & _ & H).
  apply (H "!" "invalid pattern"); reflexivity.
Defined.

(** ** The ignore rules, seen from the whole run *)
Section rules_facts.

Lemma filter_entries_ext s1 s2 (N1 N2 E1 E2 : gset string) current_rel entries :
  (∀ p, should_ignore p s1 N1 E1 = should_ignore p s2 N2 E2) →
  filter_entries s1 N1 E1 current_rel entries
  = filter_entries s2 N2 E2 current_rel entries.
Proof.
  intros Hsame. unfold filter_entries. generalize (@nil string).
  induction entries as [|e es IH]; intros acc; simpl; [done |].
  unfold filter_step at 2 4. rewrite Hsame. apply IH.
Qed.

Lemma render_loop_self_ext self1 self2 dir current_rel prefix count :
  (∀ d r p, self1 d r p = self2 d r p) →
  ∀ todo index tree_lines,
    render_loop self1 dir current_rel prefix count index todo tree_lines
    = render_loop self2 dir current_rel prefix count index todo tree_lines.
Proof.
  intros Hself. induction todo as [|entry todo IH]; intros index tree_lines;
    simpl; [done |].
  destruct (subdir (child dir entry)) as [c|]; [|apply IH].
  rewrite Hself. destruct (self2 _ _ _); simpl; [apply IH | done].
Qed.

(** The tree depends on the rules only through the paths they ignore. *)
Lemma generate_tree_ignore_ext s1 s2 (N1 N2 E1 E2 : gset string) :
  (∀ p, should_ignore p s1 N1 E1 = should_ignore p s2 N2 E2) →
  ∀ fuel dir current_rel prefix,
    generate_tree s1 N1 E1 fuel dir current_rel prefix
    = generate_tree s2 N2 E2 fuel dir current_rel prefix.
Proof.
  intros Hsame. induction fuel as [|fuel IH]; intros dir current_rel prefix;
    simpl; [done |].
  destruct (listdir dir) as [names|]; [|done].
  rewrite (filter_entries_ext s1 s2 N1 N2 E1 E2) by done.
  by apply render_loop_self_ext.
Qed.

Lemma walk_loop_self_ext self1 self2 dir root_rel :
  (∀ c r s, self1 c r s = self2 c r s) →
  ∀ dirs st,
    walk_loop self1 dir root_rel dirs st = walk_loop self2 dir root_rel dirs st.
Proof.
  intros Hself. induction dirs as [|d dirs IH]; intros st; simpl; [done |].
  destruct (child dir d) as [c|]; [|apply IH].
  destruct (is_link c); [apply IH |].
  rewrite Hself. destruct (self2 _ _ _); simpl; [apply IH | done].
Qed.

Lemma emit_files_ext s1 s2 (N E1 E2 : gset string) dir root_rel files st :
  (∀ p, should_ignore p s1 N E1 = should_ignore p s2 N E2) →
  fold_left (emit_file s1 N E1 dir root_rel) files st
  = fold_left (emit_file s2 N E2 dir root_rel) files st.
Proof.
  intros Hsame. revert st. induction files as [|f files IH]; intros st;
    simpl; [done |].
  rewrite IH. f_equal. unfold emit_file. by rewrite Hsame.
Qed.

(** So does the walk, the name set being the same. *)
Lemma emit_walk_ignore_ext s1 s2 (N E1 E2 : gset string) :
  (∀ p, should_ignore p s1 N E1 = should_ignore p s2 N E2) →
  ∀ fuel top root_rel st,
    emit_walk s1 N E1 fuel top root_rel st
    = emit_walk s2 N E2 fuel top root_rel st.
Proof.
  intros Hsame. induction fuel as [|fuel IH]; intros top root_rel st;
    simpl; [done |].
  destruct (entries_of top) as [es|]; [|done].
  rewrite (emit_files_ext s1 s2 N E1 E2) by done.
  by apply walk_loop_self_ext.
Qed.

Lemma run_ignore_ext s1 s2 (N E1 E2 : gset string) fuel args target :
  (∀ p, should_ignore p s1 N E1 = should_ignore p s2 N E2) →
  run fuel args target s1 N E1 = run fuel args target s2 N E2.
Proof.
  intros Hsame. unfold run, preamble.
  rewrite (generate_tree_ignore_ext s1 s2 N N E1 E2 Hsame).
  destruct (negb (no_tree args)); simpl.
  - destruct (generate_tree _ _ _ _ _ _ _); simpl; [|done].
    by apply emit_walk_ignore_ext.
  - by apply emit_walk_ignore_ext.
Qed.

Lemma endswith_empty (s : string) : endswith s "" = true.
Proof. induction s as [|c s IH]; simpl; [done |]. by repeat case_bool_decide. Qed.

Lemma filter_entries_all_ignored spec (N E : gset string) current_rel entries :
  (∀ p, should_ignore p spec N E = true) →
  filter_entries spec N E current_rel entries = [].
Proof.
  intros Hall. unfold filter_entries.
  induction entries as [|e es IH]; simpl; [done |].
  unfold filter_step at 2. by rewrite Hall.
Qed.

Lemma walk_loop_unchanged self dir root_rel :
  (∀ c r s s', self c r s = Some s' → s' = s) →
  ∀ dirs st st', walk_loop self dir root_rel dirs st = Some st' → st' = st.
Proof.
  intros Hself. induction dirs as [|d dirs IH]; intros st st' Hrun;
    simpl in Hrun; [by simplify_eq |].
  destruct (child dir d) as [c|]; [|by apply IH].
  destruct (is_link c); [by apply IH |].
  destruct (self c (rel_join root_rel d) st) as [s1|] eqn:Hs; [|done].
  apply Hself in Hs as ->. by apply IH.
Qed.

End rules_facts.

(** X2: the run depends on the matcher only through the paths it
    matches: two matchers, present or absent, with or without patterns,
    that match the same paths give the same output file and the same
    diagnostics.  A [.gitignore] compiled to no pattern at all therefore
    changes nothing. *)
Theorem run_depends_on_matched_paths :
  ∀ (s1 s2 : option pathspec.PathSpec) (N E : gset string) (fuel : nat)
    (args : Args) (target : node),
    (∀ p, spec_match_file s1 p = spec_match_file s2 p) →
    run fuel args target s1 N E = run fuel args target s2 N E.
Proof.
  intros s1 s2 N E fuel args target Hsame. apply run_ignore_ext.
  intros p. by rewrite !should_ignore_orb, !check_spec_match, Hsame.
Qed.

Lemma run_depends_on_matched_paths_witness :
  run 2 {| target_dir_name := "p"; no_tree := false;
           ignore_files := []; ignore_extensions := [] |}
    (Dir (Some [("a.txt", File (inl "hello"))]))
    (Some {| pathspec.patterns := [] |}) ∅ ∅
  = run 2 {| target_dir_name := "p"; no_tree := false;
             ignore_files := []; ignore_extensions := [] |}
      (Dir (Some [("a.txt", File (inl "hello"))])) None ∅ ∅.
Proof.
  apply (run_depends_on_matched_paths (Some {| pathspec.patterns := [] |}) None).
  intros p. reflexivity.
Defined.

(** X3: an empty string among the ignored extensions ignores every path,
    since every path ends with it: the tree of any directory is empty and
    the walk, wherever it goes, neither writes nor prints. *)
Theorem empty_extension_ignores_everything :
  ∀ (spec : option pathspec.PathSpec) (N E : gset string),
    "" ∈ E →
    (∀ p, should_ignore p spec N E = true)
    ∧ (∀ fuel dir current_rel prefix,
         generate_tree spec N E (S fuel) dir current_rel prefix = Some [])
    ∧ (∀ fuel top root_rel st st',
         emit_walk spec N E fuel top root_rel st = Some st' → st' = st).
Proof.
  intros spec N E Hin.
  assert (Hall : ∀ p, should_ignore p spec N E = true).
  { intros p. apply should_ignore_extension with ""; [done |].
    apply endswith_empty. }
  split; [done |]. split.
  - intros fuel dir current_rel prefix. simpl.
    destruct (listdir dir) as [names|]; [|done].
    by rewrite filter_entries_all_ignored.
  - induction fuel as [|fuel IH]; intros top root_rel st st' Hrun; [done |].
    simpl in Hrun. destruct (entries_of top) as [es|]; [|by simplify_eq].
    assert (Hfiles : ∀ files s,
              fold_left (emit_file spec N E top root_rel) files s = s).
    { induction files as [|f files IHf]; intros s; simpl; [done |].
      rewrite IHf. unfold emit_file. by rewrite Hall. }
    rewrite Hfiles in Hrun.
    by apply (walk_loop_unchanged _ _ _ (IH)) in Hrun.
Qed.

Lemma empty_extension_ignores_everything_witness :
  generate_tree None ∅ {[ "" ]} 1
    (Dir (Some [("a.txt", File (inl "hello")); ("src", Dir (Some []))])) "" ""
  = Some [].
Proof.
  assert (H : ("" : string) ∈ ({[ "" ]} : gset string)) by set_solver.
  destruct (empty_extension_ignores_everything None ∅ {[ "" ]} H)
    as (_ & Htree & _).
  apply Htree.
Defined.

(** ** What the preamble writes; larger sets ignore more *)
Section frame_facts.

Context (spec : option pathspec.PathSpec) (N E : gset string).

Lemma write_lines_outf (lines : list string) st :
  outf (fold_left (λ st line, write (line +:+ nl) st) lines st)
  = outf st ++ ((λ line, line +:+ nl) <$> lines).
Proof.
  revert st. induction lines as [|l ls IH]; intros st; simpl.
  - by rewrite app_nil_r.
  - rewrite IH. simpl. by rewrite <- app_assoc.
Qed.

Lemma write_tree_outf lines st :
  outf (write_tree lines st) = outf st ++ tree_writes lines.
Proof.
  unfold write_tree, tree_writes. simpl. rewrite write_lines_outf. simpl.
  by rewrite <- !app_assoc.
Qed.

Lemma failures_of_sublist (vs : list (string * (string + string))) :
  (failures_of vs).*1 `sublist_of` vs.*1.
Proof.
  induction vs as [|[p [c|e]] vs IH]; simpl; [done | |].
  - by apply sublist_cons.
  - by apply sublist_skip.
Qed.



End frame_facts.

(** X5: before the walk the output file holds the description, followed,
    unless [--no-tree] is given, by the heading, an opening fence, the
    tree with one line per write, and a closing fence; nothing is printed.
    With [--no-tree] the tree is not even rendered. *)
Theorem preamble_layout :
  ∀ (fuel : nat) (args : Args) (target : node)
    (spec : option pathspec.PathSpec) (N E : gset string) (st0 : state),
    preamble fuel args target spec N E = Some st0 →
    stdout st0 = []
    ∧ (no_tree args = true →
       outf st0 = [description (target_dir_name args) +:+ nl +:+ nl])
    ∧ (no_tree args = false →
       ∃ tree_lines,
         generate_tree spec N E fuel target "" "" = Some tree_lines
         ∧ outf st0
           = [description (target_dir_name args) +:+ nl +:+ nl]
             ++ tree_writes tree_lines).
Proof.
  intros fuel args target spec N E st0 Hpre.
  split; [by eapply preamble_stdout |].
  unfold preamble in Hpre. destruct (no_tree args); simpl in Hpre.
  - split; [|done]. intros _. by simplify_eq.
  - split; [done |]. intros _.
    destruct (generate_tree _ _ _ _ _ _ _) as [ls|]; [|done].
    simpl in Hpre. simplify_eq. exists ls. split; [done |].
    by rewrite write_tree_outf.
Qed.

Lemma preamble_layout_witness :
  ∃ tree_lines,
    generate_tree None ∅ ∅ 2
      (Dir (Some [("a.txt", File (inl "hello"))])) "" "" = Some tree_lines
    ∧ [description "p" +:+ nl +:+ nl] ++ tree_writes ["└── a.txt"]
      = [description "p" +:+ nl +:+ nl] ++ tree_writes tree_lines.
Proof.
  destruct (preamble_layout 2
              {| target_dir_name := "p"; no_tree := false;
                 ignore_files := []; ignore_extensions := [] |}
              (Dir (Some [("a.txt", File (inl "hello"))])) None ∅ ∅
              {| outf := [description "p" +:+ nl +:+ nl]
                         ++ tree_writes ["└── a.txt"];
                 stdout := [] |})
    as (_ & _ & H).
  - vm_compute. reflexivity.
  - apply H. reflexivity.
Defined.

(** X6: after a run that finishes, standard output holds the diagnostics
    of the files the walk met, did not ignore and could not read, one line
    each, and nothing else; an ignored file is never read, so it never
    gives a diagnostic. *)
Theorem diagnostics_are_the_failed_reads :
  ∀ (from_lines : string → pathspec.PathSpec + string) (fuel : nat) (args : Args)
    (target : node) (st : state),
    well_formed target = true →
    main from_lines fuel args target = Some (Finished st) →
    ∃ (spec : option pathspec.PathSpec) (fails : list (string * string)),
      gitignore_spec from_lines target = inl spec
      ∧ stdout st = (λ s, diagnostic s.1 s.2) <$> fails
      ∧ NoDup fails.*1
      ∧ ∀ p e,
          (p, e) ∈ fails
          ↔ ∃ cs, p = rel_of cs
                  ∧ visited spec (name_set args target)
                      (list_to_set (ignore_extensions args)) [] target cs
                      (inr e).
Proof.
  intros from_lines fuel args target st Hwf Hmain.
  apply main_Finished_inv in Hmain as (spec & Hspec & Hrun).
  apply run_visits in Hrun as (st0 & vs & Hpre & -> & Hnd & Hmem); [|done].
  exists spec, (failures_of vs). split; [done |]. split; [|split].
  - by rewrite record_visits_stdout, (preamble_stdout _ _ _ _ _ _ _ Hpre).
  - eapply sublist_NoDup; [exact Hnd | apply failures_of_sublist].
  - intros p e. by rewrite elem_of_failures_of, Hmem.
Qed.

Lemma diagnostics_are_the_failed_reads_witness :
  ∃ fails : list (string * string),
    [diagnostic "bad.bin" "invalid start byte"]
    = (λ s, diagnostic s.1 s.2) <$> fails
    ∧ NoDup fails.*1.
Proof.
  destruct (diagnostics_are_the_failed_reads
              (λ _, inl {| pathspec.patterns := [] |}) 2
              {| target_dir_name := "p"; no_tree := true;
                 ignore_files := []; ignore_extensions := [ ".log" ] |}
              (Dir (Some [("bad.bin", File (inr "invalid start byte"));
                          ("bad.log", File (inr "not even opened"));
                          ("a.txt", File (inl "hello"))]))
              {| outf := [description "p" +:+ nl +:+ nl]
                         ++ section_writes "a.txt" "hello";
                 stdout := [diagnostic "bad.bin" "invalid start byte"] |})
    as (spec & fails & _ & Hout & Hnd & _).
  - vm_compute. reflexivity.
  - vm_compute. reflexivity.
  - exists fails. split; [exact Hout | exact Hnd].
Defined.



(** X8: relative paths are unambiguous.  Built name by name as the tree
    and the walk build them, two different sequences of entry names never
    spell the same relative path, and the basename [should_ignore] reads
    back from the path of an entry is the entry's own name. *)
Theorem relative_paths_identify_entries :
  ∀ (cs cs' : list string),
    Forall (λ n, valid_name n = true) cs →
    Forall (λ n, valid_name n = true) cs' →
    (rel_of cs = rel_of cs' → cs = cs')
    ∧ (∀ n, valid_name n = true → basename (rel_of (cs ++ [n])) = n).
Proof.
  intros cs cs' Hv Hv'. split; [by apply rel_of_inj |].
  intros n [_ Hn]%valid_name_spec. rewrite rel_of_snoc.
  by apply basename_rel_join.
Qed.

Lemma relative_paths_identify_entries_witness :
  basename (rel_of (["src"; "pkg"] ++ ["mod.py"])) = "mod.py".
Proof.
  assert (Hv : Forall (λ n, valid_name n = true) ["src"; "pkg"])
    by (repeat constructor).
  destruct (relative_paths_identify_entries ["src"; "pkg"] ["src"; "pkg"] Hv Hv)
    as [_ Hb].
  apply Hb. reflexivity.
Defined.

(** ** Trees that render alike *)
Section tree_map_facts.

Context (spec : option pathspec.PathSpec) (N E : gset string).

(** A transformation of the scanned tree that keeps the kind of every
    node, the entries each directory is left with after filtering, and
    that acts on them child by child. *)
Variable g : node → node.
Hypothesis g_kind : ∀ c, is_dir (g c) = is_dir c.
Hypothesis g_listing :
  ∀ d current_rel,
    (λ names, filter_entries spec N E current_rel (sorted names)) <$> listdir (g d)
    = (λ names, filter_entries spec N E current_rel (sorted names)) <$> listdir d.
Hypothesis g_child :
  ∀ d current_rel names e,
    listdir d = Some names →
    e ∈ filter_entries spec N E current_rel (sorted names) →
    child (g d) e = g <$> child d e.

Lemma render_loop_map self d current_rel prefix count :
  (∀ c r p, self (g c) r p = self c r p) →
  ∀ todo index tree_lines,
    (∀ e, e ∈ todo → child (g d) e = g <$> child d e) →
    render_loop self (g d) current_rel prefix count index todo tree_lines
    = render_loop self d current_rel prefix count index todo tree_lines.
Proof.
  intros Hself. induction todo as [|entry todo IH]; intros index tree_lines Hc;
    simpl; [done |].
  assert (Hrest : ∀ e, e ∈ todo → child (g d) e = g <$> child d e)
    by (intros e He; apply Hc; by right).
  rewrite (Hc entry) by left.
  destruct (child d entry) as [c|]; simpl; [|by apply IH].
  rewrite g_kind. destruct (is_dir c); [|by apply IH].
  rewrite Hself. destruct (self _ _ _); simpl; [by apply IH | done].
Qed.

Lemma generate_tree_map fuel :
  ∀ d current_rel prefix,
    generate_tree spec N E fuel (g d) current_rel prefix
    = generate_tree spec N E fuel d current_rel prefix.
Proof.
  induction fuel as [|fuel IH]; intros d current_rel prefix; simpl; [done |].
  pose proof (g_listing d current_rel) as Hl.
  pose proof (g_child d current_rel) as Hc.
  destruct (listdir (g d)) as [names'|], (listdir d) as [names|];
    simpl in Hl; try done.
  injection Hl as Hl. rewrite Hl.
  apply render_loop_map; [done |].
  intros e He. by apply (Hc names).
Qed.

End tree_map_facts.

(** ** The tree does not look into files *)
Section shape_facts.

Lemma shape_kind c : is_dir (shape c) = is_dir c.
Proof. by destruct c as [|[|]|[|]]. Qed.

Lemma shape_listdir d : listdir (shape d) = listdir d.
Proof.
  destruct d as [|[es|]|[es|]]; try done; unfold listdir; simpl; f_equal;
    by rewrite <- list_fmap_compose.
Qed.

Lemma shape_child d e : child (shape d) e = shape <$> child d e.
Proof.
  destruct d as [|[es|]|[es|]]; try done; unfold child; simpl;
    (induction es as [|[n x] es IH]; simpl; [done |]); by case_bool_decide.
Qed.

End shape_facts.

(** X9: the tree listing depends on the names and the kinds of the
    entries only: whatever the files hold, and whether they can be read or
    not, the lines are the same.  A file that cannot be read is listed
    like any other. *)
Theorem tree_ignores_file_contents :
  ∀ (spec : option pathspec.PathSpec) (N E : gset string) (fuel : nat)
    (dir : node) (current_rel prefix : string),
    generate_tree spec N E fuel (shape dir) current_rel prefix
    = generate_tree spec N E fuel dir current_rel prefix.
Proof.
  intros spec N E fuel dir current_rel prefix.
  apply (generate_tree_map spec N E shape).
  - apply shape_kind.
  - intros d cur. by rewrite shape_listdir.
  - intros d cur names e _ _. apply shape_child.
Qed.

(** ** Entries whose name is in the name set *)
Section prune_facts.

Context (spec : option pathspec.PathSpec) (N E : gset string).
Context (n : string) (Hn : n ∈ N) (Hsep : has_sep n = false).

Lemma prune_kind c : is_dir (prune n c) = is_dir c.
Proof. by destruct c as [|[|]|[|]]. Qed.

Lemma prune_link c : is_link (prune n c) = is_link c.
Proof. by destruct c as [|[|]|[|]]. Qed.

Lemma prune_names (es : list (string * node)) :
  (omap (λ e, if bool_decide (e.1 = n) then None
              else Some (e.1, prune n e.2)) es).*1
  = filter (λ x, x ≠ n) es.*1.
Proof.
  induction es as [|[x c] es IH]; [done |].
  rewrite fmap_cons, filter_cons. csimpl.
  case_bool_decide; case_decide; try done.
  by rewrite fmap_cons, IH.
Qed.

Lemma prune_lookup e (es : list (string * node)) :
  e ≠ n →
  lookup_entry e (omap (λ e, if bool_decide (e.1 = n) then None
                             else Some (e.1, prune n e.2)) es)
  = prune n <$> lookup_entry e es.
Proof.
  intros He. induction es as [|[x c] es IH]; [done |].
  csimpl. case_bool_decide as Hx; simpl.
  - subst x. by rewrite bool_decide_eq_false_2.
  - by case_bool_decide.
Qed.

Lemma prune_child d e : e ≠ n → child (prune n d) e = prune n <$> child d e.
Proof.
  intros He. destruct d as [|[es|]|[es|]]; try done; unfold child; simpl;
    by apply prune_lookup.
Qed.

Lemma ignored_in_any_directory current_rel :
  should_ignore (rel_join current_rel n) spec N E = true.
Proof. apply should_ignore_name. by rewrite basename_rel_join. Qed.

Lemma kept_not_pruned current_rel e : kept spec N E current_rel e → e ≠ n.
Proof.
  intros Hk ->. unfold kept in Hk.
  by rewrite ignored_in_any_directory in Hk.
Qed.

Lemma prune_filter_entries current_rel (es : list (string * node)) :
  filter_entries spec N E current_rel (sorted (filter (λ x, x ≠ n) es.*1))
  = filter_entries spec N E current_rel (sorted es.*1).
Proof.
  rewrite sorted_filter, !filter_entries_filter, list_filter_filter.
  apply list_filter_iff. intros x. split; [by intros [? _] |].
  intros Hk. split; [done | by eapply kept_not_pruned].
Qed.

Lemma generate_tree_prune fuel d current_rel prefix :
  generate_tree spec N E fuel (prune n d) current_rel prefix
  = generate_tree spec N E fuel d current_rel prefix.
Proof.
  apply (generate_tree_map spec N E (prune n)).
  - apply prune_kind.
  - intros [|[es|]|[es|]] cur; try done; unfold listdir; simpl;
      by rewrite prune_names, prune_filter_entries.
  - intros d' cur names e _ He. apply prune_child.
    apply elem_of_filter_entries in He as [Hk _].
    by eapply kept_not_pruned.
Qed.

Lemma prune_filter (P : string * node → Prop) `{∀ e, Decision (P e)}
    (es : list (string * node)) :
  (∀ x c, P (x, prune n c) ↔ P (x, c)) →
  (filter P (omap (λ e, if bool_decide (e.1 = n) then None
                        else Some (e.1, prune n e.2)) es)).*1
  = filter (λ x, x ≠ n) (filter P es).*1.
Proof.
  intros HP. induction es as [|[x c] es IH]; [done |].
  csimpl. rewrite (filter_cons P (x, c)).
  case_bool_decide as Hx; csimpl.
  - subst x. case_decide; [|done].
    rewrite fmap_cons, filter_cons. simpl. by rewrite decide_False by auto.
  - rewrite filter_cons. destruct (decide (P (x, c))) as [Hp|Hp].
    + rewrite decide_True by (by apply HP).
      rewrite !fmap_cons, filter_cons. simpl.
      rewrite decide_True by done. by rewrite IH.
    + rewrite decide_False; [done |]. by rewrite HP.
Qed.

Lemma read_text_prune o : read_text (prune n <$> o) = read_text o.
Proof. by destruct o as [[|[|]|[|]]|]. Qed.

Lemma emit_files_prune top root_rel files st :
  fold_left (emit_file spec N E (prune n top) root_rel)
    (filter (λ x, x ≠ n) files) st
  = fold_left (emit_file spec N E top root_rel) files st.
Proof.
  revert st. induction files as [|f files IH]; intros st; [done |].
  rewrite filter_cons. simpl. case_decide as Hf.
  - simpl. rewrite IH. f_equal. unfold emit_file.
    by rewrite prune_child, read_text_prune.
  - subst f. rewrite IH. f_equal. unfold emit_file.
    by rewrite ignored_in_any_directory.
Qed.

Lemma walk_loop_prune self top root_rel :
  (∀ c r s, self (prune n c) r s = self c r s) →
  ∀ dirs st,
    (∀ d, d ∈ dirs → d ≠ n) →
    walk_loop self (prune n top) root_rel dirs st
    = walk_loop self top root_rel dirs st.
Proof.
  intros Hself. induction dirs as [|d dirs IH]; intros st Hd; simpl; [done |].
  assert (Hrest : ∀ x, x ∈ dirs → x ≠ n) by (intros x Hx; apply Hd; by right).
  rewrite prune_child by (apply Hd; by left).
  destruct (child top d) as [c|]; simpl; [|by apply IH].
  rewrite prune_link. destruct (is_link c); [by apply IH |].
  rewrite Hself. destruct (self c _ _); simpl; [by apply IH | done].
Qed.

Lemma emit_walk_prune fuel :
  ∀ top root_rel st,
    emit_walk spec N E fuel (prune n top) root_rel st
    = emit_walk spec N E fuel top root_rel st.
Proof.
  induction fuel as [|fuel IH]; intros top root_rel st; simpl; [done |].
  assert (Hsame : ∀ es : list (string * node),
    filter (λ x, (x ∉ N) ∧ x ≠ n) (walk_dirs es)
    = filter (λ x, x ∉ N) (walk_dirs es)).
  { intros es. apply list_filter_iff. intros x. split; [by intros [? _] |].
    intros Hx. split; [done |]. by intros ->. }
  destruct top as [data|[es|]|[es|]]; try done; simpl;
    unfold walk_files, walk_dirs;
    (rewrite !prune_filter by (intros x c; simpl; by rewrite prune_kind));
    fold (walk_files es); fold (walk_dirs es).
  - pose proof (emit_files_prune (Dir (Some es)) root_rel (walk_files es) st)
      as Hfiles.
    simpl in Hfiles. rewrite Hfiles, list_filter_filter, Hsame.
    pose proof (walk_loop_prune (emit_walk spec N E fuel) (Dir (Some es))
                  root_rel IH) as Hloop.
    simpl in Hloop. apply Hloop.
    intros d [Hd _]%list_elem_of_filter. by intros ->.
  - pose proof (emit_files_prune (DirLink (Some es)) root_rel (walk_files es) st)
      as Hfiles.
    simpl in Hfiles. rewrite Hfiles, list_filter_filter, Hsame.
    pose proof (walk_loop_prune (emit_walk spec N E fuel) (DirLink (Some es))
                  root_rel IH) as Hloop.
    simpl in Hloop. apply Hloop.
    intros d [Hd _]%list_elem_of_filter. by intros ->.
Qed.

End prune_facts.

(** C9: once [".git"] has joined the name set, every path whose basename
    is [".git"] is ignored: the entry of that name in any directory
    [current_rel], file or directory alike, is dropped by the tree's
    filtering loop, pruned from the directories of the walk and skipped
    by the file loop.  So the tree listing, the walk and the whole run are
    those of the tree with every entry named [".git"], at every depth,
    taken out together with what is below it. *)
Theorem git_name_ignored_at_any_depth :
  ∀ (args : Args) (target : node),
    isdir (child target ".git") = true →
    ".git" ∈ name_set args target
    ∧ ∀ (spec : option pathspec.PathSpec) (E : gset string),
        (∀ p, basename p = ".git" →
              should_ignore p spec (name_set args target) E = true)
        ∧ (∀ current_rel,
             should_ignore (rel_join current_rel ".git") spec
               (name_set args target) E = true)
        ∧ (∀ current_rel entries,
             ".git" ∉ filter_entries spec (name_set args target) E
                        current_rel entries)
        ∧ (∀ es, ".git" ∉ filter (λ d, d ∉ name_set args target) (walk_dirs es))
        ∧ (∀ dir root_rel st,
             emit_file spec (name_set args target) E dir root_rel st ".git" = st)
        ∧ (∀ fuel dir current_rel prefix,
             generate_tree spec (name_set args target) E fuel
               (prune ".git" dir) current_rel prefix
             = generate_tree spec (name_set args target) E fuel
                 dir current_rel prefix)
        ∧ (∀ fuel top root_rel st,
             emit_walk spec (name_set args target) E fuel
               (prune ".git" top) root_rel st
             = emit_walk spec (name_set args target) E fuel top root_rel st)
        ∧ (∀ fuel,
             run fuel args (prune ".git" target) spec (name_set args target) E
             = run fuel args target spec (name_set args target) E).
Proof.
  intros args target Hgit.
  assert (Hin : ".git" ∈ name_set args target).
  { unfold name_set. rewrite Hgit. set_solver. }
  split; [done |]. intros spec E.
  assert (Hany : ∀ current_rel,
            should_ignore (rel_join current_rel ".git") spec
              (name_set args target) E = true).
  { intros current_rel. apply should_ignore_name.
    by rewrite basename_rel_join. }
  split; [|split; [|split; [|split; [|split; [|split; [|split]]]]]].
  - intros p Hp. apply should_ignore_name. by rewrite Hp.
  - done.
  - intros current_rel entries [Hk _]%elem_of_filter_entries.
    unfold kept in Hk. by rewrite Hany in Hk.
  - intros es [Hk _]%list_elem_of_filter. done.
  - intros dir root_rel st. unfold emit_file. by rewrite Hany.
  - intros fuel dir current_rel prefix. by apply generate_tree_prune.
  - intros fuel top root_rel st. by apply emit_walk_prune.
  - intros fuel. unfold run, preamble.
    rewrite generate_tree_prune by done.
    destruct (negb (no_tree args)); simpl.
    + destruct (generate_tree _ _ _ _ _ _ _); simpl; [|done].
      by apply emit_walk_prune.
    + by apply emit_walk_prune.
Qed.

Lemma git_name_ignored_at_any_depth_witness :
  should_ignore "vendor/lib/.git" None
    (name_set {| target_dir_name := "proj"; no_tree := false;
                 ignore_files := []; ignore_extensions := [] |}
       (Dir (Some [(".git", Dir (Some []));
                   ("vendor", Dir (Some [(".git", File (inl "gitdir: x"));
                                         ("v.c", File (inl "int v;"))]))])))
    ∅ = true
  ∧ generate_tree None
      (name_set {| target_dir_name := "proj"; no_tree := false;
                   ignore_files := []; ignore_extensions := [] |}
         (Dir (Some [(".git", Dir (Some []));
                     ("vendor", Dir (Some [(".git", File (inl "gitdir: x"));
                                           ("v.c", File (inl "int v;"))]))])))
      ∅ 3
      (Dir (Some [(".git", Dir (Some []));
                  ("vendor", Dir (Some [(".git", File (inl "gitdir: x"));
                                        ("v.c", File (inl "int v;"))]))]))
      "" ""
    = Some ["└── vendor"; "    └── v.c"].
Proof.
  pose proof (git_name_ignored_at_any_depth
                {| target_dir_name := "proj"; no_tree := false;
                   ignore_files := []; ignore_extensions := [] |}
                (Dir (Some [(".git", Dir (Some []));
                            ("vendor",
                             Dir (Some [(".git", File (inl "gitdir: x"));
                                        ("v.c", File (inl "int v;"))]))]))
                eq_refl) as [_ H].
  destruct (H None ∅) as (Hp & _ & _ & _ & _ & Htree & _).
  split; [apply Hp; reflexivity |].
  rewrite <- Htree. vm_compute. reflexivity.
Defined.

(** X10: a name in the name set takes the entries of that name out at
    every depth, files and directories alike: the tree listing, the walk
    and the whole run are those of the target with all these entries, and
    everything below them, removed. *)
Theorem named_entries_removed_at_every_depth :
  ∀ (spec : option pathspec.PathSpec) (N E : gset string) (n : string),
    n ∈ N → has_sep n = false →
    (∀ fuel dir current_rel prefix,
       generate_tree spec N E fuel (prune n dir) current_rel prefix
       = generate_tree spec N E fuel dir current_rel prefix)
    ∧ (∀ fuel top root_rel st,
         emit_walk spec N E fuel (prune n top) root_rel st
         = emit_walk spec N E fuel top root_rel st)
    ∧ (∀ fuel args target,
         run fuel args (prune n target) spec N E
         = run fuel args target spec N E).
Proof.
  intros spec N E n Hn Hsep.
  split; [|split].
  - intros fuel dir current_rel prefix. by apply generate_tree_prune.
  - intros fuel top root_rel st. by apply emit_walk_prune.
  - intros fuel args target. unfold run, preamble.
    rewrite generate_tree_prune by done.
    destruct (negb (no_tree args)); simpl.
    + destruct (generate_tree _ _ _ _ _ _ _); simpl; [|done].
      by apply emit_walk_prune.
    + by apply emit_walk_prune.
Qed.

Lemma named_entries_removed_at_every_depth_witness :
  run 3 {| target_dir_name := "p"; no_tree := false;
           ignore_files := [ "node_modules" ]; ignore_extensions := [] |}
    (Dir (Some [("a.txt", File (inl "hello"))])) None {[ "node_modules" ]} ∅
  = run 3 {| target_dir_name := "p"; no_tree := false;
             ignore_files := [ "node_modules" ]; ignore_extensions := [] |}
      (Dir (Some [("node_modules", Dir (Some [("x.js", File (inl "1"))]));
                  ("a.txt", File (inl "hello"))]))
      None {[ "node_modules" ]} ∅.
Proof.
  assert (H : ("node_modules" : string) ∈ ({[ "node_modules" ]} : gset string))
    by set_solver.
  destruct (named_entries_removed_at_every_depth None {[ "node_modules" ]} ∅
              "node_modules" H eq_refl) as (_ & _ & Hrun).
  exact (Hrun 3 _
           (Dir (Some [("node_modules", Dir (Some [("x.js", File (inl "1"))]));
                       ("a.txt", File (inl "hello"))]))).
Defined.

(** ** The lines of the tree, entry by entry *)
Section listing_facts.

Context (spec : option pathspec.PathSpec) (N E : gset string).

Lemma is_guide_connector index count : is_guide 0 (connector_of index count).
Proof.
  exists [], (connector_of index count). repeat split; [constructor |].
  unfold connector_of. destruct (_ =? _)%Z; auto.
Qed.

Lemma is_guide_extension k g index count :
  is_guide k g → is_guide (S k) (extension_of index count +:+ g).
Proof.
  intros (segs & c & Hlen & Hsegs & Hc & ->).
  exists (extension_of index count :: segs), c.
  split; [by rewrite length_cons, Hlen |]. split; [|done].
  constructor; [|done]. unfold extension_of. destruct (_ =? _)%Z; auto.
Qed.

Lemma line_for_entry prefix e index count :
  line_for prefix [e] ((prefix +:+ connector_of index count) +:+ e).
Proof.
  exists e, (connector_of index count). split; [done |].
  split; [apply is_guide_connector | done].
Qed.

Lemma line_for_nonempty prefix cs line : line_for prefix cs line → cs ≠ [].
Proof. intros (name & g & Hlast & _) ->. done. Qed.

Lemma line_for_below prefix d cs line index count :
  line_for (prefix +:+ extension_of index count) cs line →
  line_for prefix (d :: cs) line.
Proof.
  intros (name & g & Hlast & Hg & ->).
  destruct cs as [|c cs]; [done |].
  exists name, (extension_of index count +:+ g). split; [done |]. split.
  - simpl in *. rewrite Nat.sub_0_r in *. by apply is_guide_extension.
  - by rewrite (app_assoc_s prefix (extension_of index count) g).
Qed.

Lemma render_loop_paths self dir rcs prefix count
    (P : string → list (list string) → Prop) :
  ∀ todo index tree_lines,
    (∀ e c p,
       e ∈ todo → subdir (child dir e) = Some c →
       ∃ ps sub,
         self c (rel_of (rcs ++ [e])) p = Some sub
         ∧ P e ps ∧ Forall2 (line_for p) ps sub) →
    ∃ (eps : list (string * list (list string))) (res : list string),
      render_loop self dir (rel_of rcs) prefix count index todo tree_lines
      = Some (tree_lines ++ res)
      ∧ eps.*1 = todo
      ∧ Forall (λ ep, match subdir (child dir ep.1) with
                      | Some _ => P ep.1 ep.2
                      | None => ep.2 = []
                      end) eps
      ∧ Forall2 (line_for prefix)
          (eps ≫= λ ep, [ep.1] :: (cons ep.1 <$> ep.2)) res.
Proof.
  induction todo as [|entry todo IH]; intros index tree_lines Hself.
  - exists [], []. simpl. rewrite app_nil_r. repeat split; constructor.
  - assert (Hrest : ∀ e c p,
              e ∈ todo → subdir (child dir e) = Some c →
              ∃ ps sub,
                self c (rel_of (rcs ++ [e])) p = Some sub
                ∧ P e ps ∧ Forall2 (line_for p) ps sub).
    { intros e c p He. apply Hself. by right. }
    simpl. rewrite <- rel_of_snoc.
    set (line := (prefix +:+ connector_of index count) +:+ entry).
    destruct (subdir (child dir entry)) as [c|] eqn:Hc.
    + destruct (Hself entry c (prefix +:+ extension_of index count)
                  (list_elem_of_here _ _) Hc) as (ps & sub & -> & HP & Hsub).
      simpl.
      destruct (IH (S index) ((tree_lines ++ [line]) ++ sub) Hrest)
        as (eps & res & -> & Heps & Hall & Hlines).
      exists ((entry, ps) :: eps), (line :: sub ++ res).
      split; [by rewrite <- !app_assoc |].
      split; [by rewrite fmap_cons, Heps |].
      split; [constructor; [by simpl; rewrite Hc | done] |].
      rewrite bind_cons. simpl. constructor; [apply line_for_entry |].
      apply Forall2_app; [|done].
      apply Forall2_fmap_l. eapply Forall2_impl; [exact Hsub |].
      intros cs ln Hln. by eapply line_for_below.
    + destruct (IH (S index) (tree_lines ++ [line]) Hrest)
        as (eps & res & -> & Heps & Hall & Hlines).
      exists ((entry, []) :: eps), (line :: res).
      split; [by rewrite <- app_assoc |]. split; [by rewrite fmap_cons, Heps |].
      split; [constructor; [by simpl; rewrite Hc | done] |].
      rewrite bind_cons. simpl. constructor; [apply line_for_entry | done].
Qed.

Lemma NoDup_listing (eps : list (string * list (list string))) :
  NoDup eps.*1 →
  Forall (λ ep, NoDup ep.2 ∧ [] ∉ ep.2) eps →
  NoDup (eps ≫= λ ep, [ep.1] :: (cons ep.1 <$> ep.2)).
Proof.
  induction eps as [|[e ps] eps IH]; intros Hnd Hall; [constructor |].
  rewrite fmap_cons in Hnd. apply NoDup_cons in Hnd as [He Hnd].
  apply Forall_cons in Hall as [[Hps Hnil] Hall].
  rewrite bind_cons. cbn [fst snd] in *.
  apply NoDup_app. split; [|split].
  - constructor.
    + intros (cs & [= <-] & Hin)%list_elem_of_fmap. done.
    + apply NoDup_fmap_2_strong; [by intros ?? _ _ [=] | done].
  - intros cs Hcs Hcs'.
    assert (∃ tl, cs = e :: tl) as [tl ->].
    { apply elem_of_cons in Hcs as [->|Hcs]; [by exists [] |].
      apply list_elem_of_fmap in Hcs as (tl & -> & _). by exists tl. }
    apply list_elem_of_bind in Hcs' as ([e' ps'] & Hin' & Hep).
    assert (e' = e) as ->.
    { apply elem_of_cons in Hin' as [Heq|Hin']; simpl in *.
      - by injection Heq.
      - apply list_elem_of_fmap in Hin' as (tl' & Heq & _).
        by injection Heq. }
    apply He. apply list_elem_of_fmap. by exists (e, ps').
  - by apply IH.
Qed.

Lemma lookup_entry_is_Some e (es : list (string * node)) :
  e ∈ es.*1 → is_Some (lookup_entry e es).
Proof.
  induction es as [|[n x] es IH]; simpl.
  - by intros ?%elem_of_nil.
  - case_bool_decide; [by eexists |].
    intros [?|?]%elem_of_cons; [done | by apply IH].
Qed.

Lemma listed_nonempty rcs top cs : listed spec N E rcs top cs → cs ≠ [].
Proof. intros (ds & n & dir & x & -> & _). by destruct ds. Qed.

Lemma listed_here rcs top es e :
  entries_of top = Some es →
  listed spec N E rcs top [e]
  ↔ e ∈ es.*1 ∧ kept spec N E (rel_of rcs) e.
Proof.
  intros Hes. unfold kept. rewrite <- rel_of_snoc. split.
  - intros (ds & n & dir & x & Heq & Hd & Hc & Hs).
    destruct ds as [|d [|? ?]]; simplify_eq/=.
    split; [|done]. rewrite (child_entries _ _ _ Hes) in Hc.
    by eapply lookup_entry_name.
  - intros [Hin Hs]. destruct (lookup_entry_is_Some e es Hin) as [x Hx].
    exists [], e, top, x. by rewrite (child_entries _ _ _ Hes).
Qed.

Lemma listed_below rcs top d c cs :
  subdir (child top d) = Some c →
  should_ignore (rel_of (rcs ++ [d])) spec N E = false →
  cs ≠ [] →
  listed spec N E rcs top (d :: cs)
  ↔ listed spec N E (rcs ++ [d]) c cs.
Proof.
  intros Hc Hs Hne. unfold listed. split.
  - intros (ds & n & dir & x & Heq & Hd & Hn & Hk).
    destruct ds as [|d' ds]; simplify_eq/=.
    rewrite Hc, Hs in Hd.
    exists ds, n, dir, x. by rewrite <- app_assoc.
  - intros (ds & n & dir & x & -> & Hd & Hn & Hk).
    exists (d :: ds), n, dir, x. split; [done |]. split; [|split; [done |]].
    + simpl. by rewrite Hc, Hs.
    + by rewrite <- app_assoc in Hk.
Qed.

Lemma listed_through rcs top d cs :
  cs ≠ [] → listed spec N E rcs top (d :: cs) →
  ∃ c, subdir (child top d) = Some c
       ∧ should_ignore (rel_of (rcs ++ [d])) spec N E = false.
Proof.
  intros Hne (ds & n & dir & x & Heq & Hd & _).
  destruct ds as [|d' ds]; simplify_eq/=.
  destruct (subdir (child top d')) as [c|]; [|done].
  destruct (should_ignore _ _ _ _) eqn:Hs; [done |]. by exists c.
Qed.

End listing_facts.

Section tree_paths_facts.

Context (spec : option pathspec.PathSpec) (N E : gset string).

(** X11: the tree listing has exactly one line for each entry that is
    reached through directories that are not ignored and is not ignored
    itself, no entry twice; the line of an entry is the caller's prefix,
    one segment (four spaces, or a bar and three spaces) for each of its
    ancestors below the rendered directory, a connector, and the entry's
    name. *)
Theorem tree_lines_are_the_listed_entries fuel :
  ∀ top rcs prefix,
    well_formed top = true →
    height top < fuel →
    ∃ (paths : list (list string)) (lines : list string),
      generate_tree spec N E fuel top (rel_of rcs) prefix = Some lines
      ∧ NoDup paths
      ∧ (∀ cs, cs ∈ paths ↔ listed spec N E rcs top cs)
      ∧ Forall2 (line_for prefix) paths lines.
Proof.
  induction fuel as [|fuel IH]; intros top rcs prefix Hwf Hh; [lia |].
  simpl. destruct (listdir top) as [names|] eqn:Hl.
  2:{ exists [], []. split; [done |]. split; [constructor |].
      split; [|constructor].
      intros cs. split; [by intros ?%elem_of_nil |].
      intros (ds & n & dir & x & -> & Hd & Hc & _).
      destruct ds as [|d ds]; simpl in Hd; unfold listdir, child in *.
      - simplify_eq. destruct (entries_of dir); simpl in *; done.
      - destruct (entries_of top); simpl in *; done. }
  assert (∃ es, entries_of top = Some es ∧ names = es.*1) as (es & Hes & ->).
  { unfold listdir in Hl. destruct (entries_of top) as [es|]; [|done].
    exists es. simpl in Hl. split; [done | congruence]. }
  destruct (well_formed_entries top es Hes Hwf) as (Hnd & _ & Hwfc).
  set (kids := filter_entries spec N E (rel_of rcs) (sorted es.*1)).
  assert (Hkids : ∀ e, e ∈ kids ↔ e ∈ es.*1 ∧ kept spec N E (rel_of rcs) e).
  { intros e. unfold kids. rewrite elem_of_filter_entries, elem_of_sorted.
    tauto. }
  destruct (render_loop_paths (generate_tree spec N E fuel) top
              rcs prefix (length kids)
              (λ e ps, ∃ c, subdir (child top e) = Some c
                            ∧ NoDup ps
                            ∧ ∀ cs, cs ∈ ps
                                    ↔ listed spec N E (rcs ++ [e]) c cs)
              kids 0 [])
    as (eps & res & Hrun & Heps & Hall & Hlines).
  { intros e c p _ Hc.
    destruct (IH c (rcs ++ [e]) p) as (ps & sub & Hs & Hps & Hmem & Hf).
    - apply subdir_Some in Hc as [Hc _].
      by destruct (child_well_formed _ _ _ Hwf Hc).
    - apply height_subdir in Hc. lia.
    - exists ps, sub. split; [done |]. split; [|done]. by exists c. }
  exists (eps ≫= λ ep, [ep.1] :: (cons ep.1 <$> ep.2)), res.
  split; [done |]. split; [|split; [|done]].
  - apply NoDup_listing.
    + rewrite Heps. unfold kids. rewrite filter_entries_filter.
      apply NoDup_filter. by rewrite sorted_Permutation.
    + eapply Forall_impl; [exact Hall |]. intros [e ps] Hep. simpl in *.
      destruct (subdir (child top e)) as [c0|];
        [|subst ps; split; [constructor | by intros ?%elem_of_nil]].
      destruct Hep as (c & _ & Hps & Hmem). split; [done |].
      intros Hnil%Hmem. by apply listed_nonempty in Hnil.
  - intros cs. rewrite list_elem_of_bind. split.
    + intros ([e ps] & Hcs & Hep). cbn [fst snd] in Hcs.
      assert (He : e ∈ kids).
      { rewrite <- Heps. apply list_elem_of_fmap. by exists (e, ps). }
      apply Hkids in He as [Hin Hk].
      eapply Forall_forall in Hall; [|exact Hep]. cbn [fst snd] in Hall.
      apply elem_of_cons in Hcs as [->|Hcs];
        [by apply (listed_here spec N E rcs top es) |].
      apply list_elem_of_fmap in Hcs as (tl & -> & Htl).
      destruct (subdir (child top e)) as [c0|] eqn:Hc;
        [|subst ps; by apply elem_of_nil in Htl].
      destruct Hall as (c & [= <-] & _ & Hmem).
      apply Hmem in Htl.
      apply (listed_below spec N E rcs top e c0 tl); try done.
      * unfold kept in Hk. by rewrite rel_of_snoc.
      * by eapply listed_nonempty.
    + intros Hlisted.
      pose proof (listed_nonempty _ _ _ _ _ _ Hlisted) as Hne.
      destruct cs as [|d [|c cs]]; [done | |].
      * apply (listed_here spec N E rcs top es) in Hlisted as Hd; [|done].
        apply Hkids in Hd.
        rewrite <- Heps in Hd.
        apply list_elem_of_fmap in Hd as ([e ps] & -> & Hep).
        exists (e, ps). split; [left | done].
      * destruct (listed_through spec N E rcs top d (c :: cs))
          as (c0 & Hc & Hs); [done | done |].
        assert (Hd : d ∈ kids).
        { apply Hkids. split.
          - apply subdir_Some in Hc as [Hc _].
            rewrite (child_entries _ _ _ Hes) in Hc.
            by eapply lookup_entry_name.
          - unfold kept. by rewrite <- rel_of_snoc. }
        rewrite <- Heps in Hd.
        apply list_elem_of_fmap in Hd as ([e ps] & -> & Hep).
        exists (e, ps). split; [|done]. cbn [fst snd] in *.
        right. apply list_elem_of_fmap. exists (c :: cs). split; [done |].
        eapply Forall_forall in Hall; [|exact Hep]. cbn [fst snd] in Hall.
        rewrite Hc in Hall. destruct Hall as (c' & [= <-] & _ & Hmem).
        apply Hmem. by apply (listed_below spec N E rcs top e c0 (c :: cs)).
Qed.

(** What the tree passes through without following a link, the walk
    passes through. *)
Lemma tree_descend_descend ds :
  ∀ rcs top dir,
    well_formed top = true →
    link_free top ds = true →
    tree_descend spec N E rcs top ds = Some dir →
    descend N top ds = Some dir.
Proof.
  induction ds as [|d ds IH]; intros rcs top dir Hwf Hlf Hd; simpl in *;
    [done |].
  destruct (child top d) as [c|] eqn:Hc; [|done]. simpl in Hd.
  apply andb_true_iff in Hlf as [Hl Hlf].
  destruct c as [|l|l]; try done. simpl in Hd.
  destruct (should_ignore _ _ _ _) eqn:Hs; [done |].
  destruct (child_well_formed _ _ _ Hwf Hc) as [Hv Hwf'].
  rewrite bool_decide_eq_false_2; [by eapply IH |].
  intros Hin. apply valid_name_spec in Hv as [_ Hsep].
  rewrite should_ignore_name in Hs; [done |].
  by rewrite rel_of_snoc, basename_rel_join.
Qed.

End tree_paths_facts.

Lemma tree_lines_are_the_listed_entries_witness :
  ∃ paths : list (list string),
    NoDup paths
    ∧ Forall2 (line_for "") paths
        ["├── README"; "└── src"; "    └── a.py"].
Proof.
  destruct (tree_lines_are_the_listed_entries None ∅ {[ ".log" ]} 3
              (Dir (Some [("src", Dir (Some [("a.py", File (inl ""))]));
                          ("x.log", File (inl ""));
                          ("README", File (inl ""))])) [] "")
    as (paths & lines & Hrun & Hnd & _ & Hlines).
  - vm_compute. reflexivity.
  - vm_compute. lia.
  - vm_compute in Hrun. injection Hrun as <-.
    exists paths. split; [exact Hnd | exact Hlines].
Defined.

(** X12: every file that has a line in the tree and is not reached
    through a symbolic link to a directory is read by the walk: if its
    text can be read the output file holds its section, and otherwise
    standard output holds its diagnostic.  (Below a link the tree, which
    follows it, lists files that the walk, which does not, never reads;
    and the walk enters directories the tree leaves out.) *)
Theorem listed_files_are_read :
  ∀ (from_lines : string → pathspec.PathSpec + string) (fuel : nat) (args : Args)
    (target : node) (st : state),
    well_formed target = true →
    main from_lines fuel args target = Some (Finished st) →
    ∃ (spec : option pathspec.PathSpec) (st0 : state)
      (secs : list (string * string)),
      gitignore_spec from_lines target = inl spec
      ∧ preamble fuel args target spec (name_set args target)
          (list_to_set (ignore_extensions args)) = Some st0
      ∧ outf st = outf st0 ++ concat (map (λ s, section_writes s.1 s.2) secs)
      ∧ ∀ ds n dir,
          tree_descend spec (name_set args target)
            (list_to_set (ignore_extensions args)) [] target ds = Some dir →
          link_free target ds = true →
          should_ignore (rel_of (ds ++ [n])) spec (name_set args target)
            (list_to_set (ignore_extensions args)) = false →
          (∀ c, child dir n = Some (File (inl c)) →
                (rel_of (ds ++ [n]), c) ∈ secs)
          ∧ (∀ e, child dir n = Some (File (inr e)) →
                  diagnostic (rel_of (ds ++ [n])) e ∈ stdout st).
Proof.
  intros from_lines fuel args target st Hwf Hmain.
  apply main_Finished_inv in Hmain as (spec & Hspec & Hrun).
  apply run_visits in Hrun as (st0 & vs & Hpre & -> & Hnd & Hmem); [|done].
  exists spec, st0, (sections_of vs).
  split; [done |]. split; [done |]. split; [apply record_visits_outf |].
  intros ds n dir Hd Hlf Hs.
  apply tree_descend_descend in Hd; [|done..].
  assert (Hv : ∀ x, child dir n = Some (File x) → (rel_of (ds ++ [n]), x) ∈ vs).
  { intros x Hx. apply Hmem. exists (ds ++ [n]). split; [done |].
    by exists ds, n, dir. }
  split.
  - intros c Hc. by apply elem_of_sections_of, Hv.
  - intros e He.
    rewrite record_visits_stdout, (preamble_stdout _ _ _ _ _ _ _ Hpre). simpl.
    apply list_elem_of_fmap. exists (rel_of (ds ++ [n]), e).
    split; [done |]. by apply elem_of_failures_of, Hv.
Qed.

Lemma listed_files_are_read_witness :
  ∃ secs : list (string * string),
    section_writes "src/a.py" "pass"
    = concat (map (λ s, section_writes s.1 s.2) secs)
    ∧ ("src/a.py", "pass") ∈ secs.
Proof.
  destruct (listed_files_are_read
              (λ _, inl {| pathspec.patterns := [] |}) 3
              {| target_dir_name := "p"; no_tree := true;
                 ignore_files := []; ignore_extensions := [] |}
              (Dir (Some [("src", Dir (Some [("a.py", File (inl "pass"))]))]))
              {| outf := [description "p" +:+ nl +:+ nl]
                         ++ section_writes "src/a.py" "pass";
                 stdout := [] |})
    as (spec & st0 & secs & Hspec & Hpre & Hout & Hread).
  - vm_compute. reflexivity.
  - vm_compute. reflexivity.
  - vm_compute in Hspec. injection Hspec as <-.
    injection Hpre as <-. simpl in Hout. injection Hout as Hout.
    exists secs. split; [exact Hout |].
    destruct (Hread ["src"] "a.py" (Dir (Some [("a.py", File (inl "pass"))])))
      as [Hsec _].
    + vm_compute. reflexivity.
    + vm_compute. reflexivity.
    + vm_compute. reflexivity.
    + apply Hsec. reflexivity.
Defined.

(** Behind a symbolic link to a directory: the tree lists [a.py] below
    [lnk], the walk writes no section for it. *)
Example link_listed_but_not_walked :
  generate_tree None ∅ ∅ 3
    (Dir (Some [("lnk", DirLink (Some [("a.py", File (inl "pass"))]))])) "" ""
  = Some ["└── lnk"; "    └── a.py"]
  ∧ emit_walk None ∅ ∅ 3
      (Dir (Some [("lnk", DirLink (Some [("a.py", File (inl "pass"))]))])) ""
      {| outf := []; stdout := [] |}
    = Some {| outf := []; stdout := [] |}.
Proof. vm_compute. done. Qed.

(** ** When only names are ignored *)
Section names_only_facts.

Context (spec : option pathspec.PathSpec) (N : gset string).
Hypothesis no_match : ∀ p, spec_match_file spec p = false.

Lemma should_ignore_names_only p :
  should_ignore p spec N ∅ = bool_decide (basename p ∈ N).
Proof.
  rewrite should_ignore_orb, check_spec_match, no_match.
  unfold check_extension, check_name. rewrite elements_empty. simpl.
  by rewrite !orb_false_r.
Qed.

Lemma descend_tree_descend ds :
  ∀ rcs top dir,
    well_formed top = true →
    descend N top ds = Some dir →
    tree_descend spec N ∅ rcs top ds = Some dir.
Proof.
  induction ds as [|d ds IH]; intros rcs top dir Hwf Hd; simpl in *; [done |].
  destruct (child top d) as [[|l|l]|] eqn:Hc; try done.
  case_bool_decide as HN; [done |]. simpl.
  destruct (child_well_formed _ _ _ Hwf Hc) as [Hv Hwf'].
  apply valid_name_spec in Hv as [_ Hsep].
  rewrite should_ignore_names_only, rel_of_snoc, basename_rel_join by done.
  rewrite bool_decide_eq_false_2 by done. by apply IH.
Qed.

End names_only_facts.

(** X13: when no extension is ignored and the matcher matches nothing,
    so that names alone decide, the walk enters only directories the
    tree enters: every section of the output file then belongs to a file
    that has a line in the tree. *)
Theorem names_only_sections_are_listed :
  ∀ (spec : option pathspec.PathSpec) (N : gset string) (fuel : nat)
    (args : Args) (target : node) (st : state),
    (∀ p, spec_match_file spec p = false) →
    well_formed target = true →
    run fuel args target spec N ∅ = Some st →
    ∃ (st0 : state) (secs : list (string * string)),
      preamble fuel args target spec N ∅ = Some st0
      ∧ outf st = outf st0 ++ concat (map (λ s, section_writes s.1 s.2) secs)
      ∧ ∀ p c,
          (p, c) ∈ secs →
          ∃ cs, p = rel_of cs
                ∧ listed spec N ∅ [] target cs
                ∧ resolve target cs = Some (File (inl c)).
Proof.
  intros spec N fuel args target st Hno Hwf Hrun.
  apply run_visits in Hrun as (st0 & vs & Hpre & -> & Hnd & Hmem); [|done].
  exists st0, (sections_of vs).
  split; [done |]. split; [apply record_visits_outf |].
  intros p c Hin. apply elem_of_sections_of, Hmem in Hin as (cs & -> & Hv).
  exists cs. split; [done |].
  pose proof (visited_exists _ _ _ _ _ _ Hwf Hv) as (_ & Hres & _).
  split; [|done].
  destruct Hv as (ds & f & dir & -> & Hd & Hc & Hs).
  exists ds, f, dir, (File (inl c)). split; [done |].
  split; [by apply descend_tree_descend | done].
Qed.

Lemma names_only_sections_are_listed_witness :
  ∃ secs : list (string * string),
    section_writes "a.txt" "hello"
    = concat (map (λ s, section_writes s.1 s.2) secs)
    ∧ ∀ p c, (p, c) ∈ secs →
             ∃ cs, p = rel_of cs
                   ∧ listed None {[ "build" ]} ∅ []
                       (Dir (Some [("build", Dir (Some [("o", File (inl "x"))]));
                                   ("a.txt", File (inl "hello"))])) cs.
Proof.
  destruct (names_only_sections_are_listed None {[ "build" ]} 3
              {| target_dir_name := "p"; no_tree := true;
                 ignore_files := [ "build" ]; ignore_extensions := [] |}
              (Dir (Some [("build", Dir (Some [("o", File (inl "x"))]));
                          ("a.txt", File (inl "hello"))]))
              {| outf := [description "p" +:+ nl +:+ nl]
                         ++ section_writes "a.txt" "hello";
                 stdout := [] |})
    as (st0 & secs & Hpre & Hout & Hl).
  - intros p. reflexivity.
  - vm_compute. reflexivity.
  - vm_compute. reflexivity.
  - injection Hpre as <-. simpl in Hout. injection Hout as Hout.
    exists secs. split; [exact Hout |].
    intros p c Hin. destruct (Hl p c Hin) as (cs & Hp & Hcs & _).
    exists cs. split; [exact Hp | exact Hcs].
Defined.
